(** * ulid-workers: a shallow embedding of [src/ulid.ts]

    The development follows the TypeScript source function by function:
    the Crockford Base32 codec ([encodeTime], [encodeRandom],
    [incrementBase32]), the timestamp gate ([validateTimestamp]), the
    time decoder ([decodeTime]) and the two generators returned by
    [ulidFactory].

    Conventions.
    - A JavaScript [number] is [NaN], an infinity, or a finite value held
      as a rational (every finite double is a rational; the comparisons
      and the integrality test the source performs are exact on them).
    - A JavaScript string is a [string]; [s[i]] is [js_index], which is
      [None] where JavaScript answers [undefined].
    - [throw new Error(msg)] is [Err e], one constructor of [error] per
      throw site; [error_kind] groups them as the specification does.
    - The random source and the clock are explicit: a [world] carries the
      bytes [crypto.getRandomValues] will deliver, and every call carries
      the value [Date.now()] has at that moment. *)

From Stdlib Require Import ZArith QArith Qround Bool List Ascii String Sorted Lia.
From Stdlib Require Import Strings.Byte.
Import ListNotations.

Local Open Scope string_scope.
Local Open Scope Z_scope.

(** ** Errors *)

(** One constructor per [throw] of the source, plus the runtime
    [TypeError] JavaScript raises when [.length] is read on [undefined]. *)
Inductive error : Type :=
| ErrNotANumber          (* "timestamp must be a number" *)
| ErrTooLarge            (* "cannot encode a timestamp larger than 2^48 - 1" *)
| ErrNegative            (* "timestamp must be positive" *)
| ErrNotInteger          (* "timestamp must be an integer" *)
| ErrTooLong             (* "Base32 value to increment cannot be longer than 16 characters" *)
| ErrMaximum             (* "Cannot increment Base32 maximum value" *)
| ErrIncorrectlyEncoded  (* "Incorrectly encoded string" *)
| ErrFailedIncrementing  (* "Failed incrementing string" *)
| ErrMalformed           (* "Malformed ULID" *)
| ErrInvalidCharacter (char : ascii) (* "Time decode error: Invalid character" *)
| ErrTimestampTooLarge   (* "Malformed ULID: timestamp too large" *)
| ErrUndefinedLength     (* reading [.length] of [undefined] *)
| ErrLoopBudget.         (* the model's loop budget ran out; never returned *)

(** The error taxonomy of the specification. *)
Inductive kind : Type :=
| TypeError | RangeError | ValueError | FormatError
| DecodeError | LengthError | OverflowError | RuntimeError.

Definition error_kind (e : error) : kind :=
  match e with
  | ErrNotANumber => TypeError
  | ErrTooLarge => RangeError
  | ErrNegative => RangeError
  | ErrNotInteger => ValueError
  | ErrTooLong => LengthError
  | ErrMaximum => OverflowError
  | ErrIncorrectlyEncoded => DecodeError
  | ErrFailedIncrementing => OverflowError
  | ErrMalformed => FormatError
  | ErrInvalidCharacter _ => DecodeError
  | ErrTimestampTooLarge => RangeError
  | ErrUndefinedLength => RuntimeError
  | ErrLoopBudget => RuntimeError
  end.

Inductive result (A : Type) : Type :=
| Ok (a : A)
| Err (e : error).

Arguments Ok {A} a.
Arguments Err {A} e.

Definition bind {A B : Type} (r : result A) (k : A -> result B) : result B :=
  match r with
  | Ok a => k a
  | Err e => Err e
  end.

Notation "x <- r ;; k" := (bind r (fun x => k))
  (at level 61, r at next level, right associativity).
Notation "r ;;; k" := (bind r (fun _ => k))
  (at level 61, right associativity).

Definition is_ok {A : Type} (r : result A) : bool :=
  match r with Ok _ => true | Err _ => false end.

Definition fails_with {A : Type} (r : result A) (k : kind) : Prop :=
  exists e, r = Err e /\ error_kind e = k.

(** ** JavaScript numbers *)

Inductive number : Type :=
| NaN
| Infinity (negative : bool)
| Finite (q : Q).

Definition of_Z (z : Z) : number := Finite (inject_Z z).

Definition Qlt_bool (a b : Q) : bool := negb (Qle_bool b a).

(** [a > b] and [a < b]; every comparison with [NaN] is false. *)
Definition num_gt (a b : number) : bool :=
  match a, b with
  | NaN, _ | _, NaN => false
  | Infinity false, Infinity false => false
  | Infinity false, _ => true
  | _, Infinity false => false
  | Infinity true, _ => false
  | _, Infinity true => true
  | Finite x, Finite y => Qlt_bool y x
  end.

Definition num_lt (a b : number) : bool := num_gt b a.

Definition isNaN (a : number) : bool :=
  match a with NaN => true | _ => false end.

(** [Number.isInteger]: finite with no fractional part. *)
Definition Number_isInteger (a : number) : bool :=
  match a with
  | Finite q => (Qnum q mod Zpos (Qden q) =? 0)%Z
  | _ => false
  end.

(** The falsy numbers are [0], [-0] and [NaN]. *)
Definition num_truthy (a : number) : bool :=
  match a with
  | NaN => false
  | Infinity _ => true
  | Finite q => negb (Qeq_bool q 0)
  end.

(** The integer a number stands for; meaningful on the numbers
    [Number_isInteger] accepts, the only ones it is applied to. *)
Definition to_Z (a : number) : Z :=
  match a with
  | Finite q => Qfloor q
  | _ => 0
  end.

(** ** Constants *)

Definition ENCODING : string := "0123456789ABCDEFGHJKMNPQRSTVWXYZ".
Definition ENCODING_LEN : Z := Z.of_nat (String.length ENCODING).
Definition TIME_MAX : Z := 2 ^ 48 - 1.
Definition TIME_LEN : nat := 10.
Definition RANDOM_LEN : nat := 16.

(** ** validateTimestamp *)

Definition validateTimestamp (timestamp : number) : result unit :=
  if isNaN timestamp then Err ErrNotANumber
  else if num_gt timestamp (of_Z TIME_MAX) then Err ErrTooLarge
  else if num_lt timestamp (of_Z 0) then Err ErrNegative
  else if negb (Number_isInteger timestamp) then Err ErrNotInteger
  else Ok tt.

(** ** JavaScript strings *)

(** [s[i]]: the character at position [i], [None] for [undefined]. *)
Definition js_index (s : string) (i : Z) : option ascii :=
  if i <? 0 then None else String.get (Z.to_nat i) s.

(** [s.charAt(i)]: a one-character string, empty out of range. *)
Definition charAt (s : string) (i : Z) : string :=
  match js_index s i with
  | Some c => String c ""
  | None => ""
  end.

(** The string a value read by [s[i]] concatenates as. *)
Definition js_str (c : option ascii) : string :=
  match c with
  | Some c => String c ""
  | None => "undefined"
  end.

Fixpoint index_from (s : string) (c : ascii) (i : Z) : Z :=
  match s with
  | "" => -1
  | String d s' => if Ascii.eqb d c then i else index_from s' c (i + 1)
  end.

(** [ENCODING.indexOf(char)] for [char] a one-character string or
    [undefined]; the text "undefined" does not occur in [ENCODING]. *)
Definition ENCODING_indexOf (char : option ascii) : Z :=
  match char with
  | Some c => index_from ENCODING c 0
  | None => -1
  end.

Fixpoint js_repeat (s : string) (n : nat) : string :=
  match n with
  | O => ""
  | S n' => s ++ js_repeat s n'
  end.

(** [s.substr(start, length)]; [length = None] when the argument is
    omitted.  A negative [start] counts from the end. *)
Definition substr (s : string) (start : Z) (length : option Z) : string :=
  let from :=
    if start <? 0 then Z.to_nat (Z.max (Z.of_nat (String.length s) + start) 0)
    else Z.to_nat start in
  match length with
  | None => substring from (String.length s - from) s
  | Some l => substring from (Z.to_nat l) s
  end.

(** [array.reduce((carry, x, index) => ..., init)] with a callback that
    may throw. *)
Fixpoint reduce_from {A B : Type} (f : B -> A -> Z -> result B)
    (l : list A) (index : Z) (carry : B) : result B :=
  match l with
  | [] => Ok carry
  | x :: l' => carry' <- f carry x index ;; reduce_from f l' (index + 1) carry'
  end.

Definition reduce {A B : Type} (f : B -> A -> Z -> result B)
    (l : list A) (init : B) : result B :=
  reduce_from f l 0 init.

(** ** The random source *)

(** [entropy w n] is the byte the [n]-th call of
    [crypto.getRandomValues] writes into the one-byte buffer. *)
Record world : Type := { entropy : nat -> byte; drawn : nat }.

Definition getRandomValues (w : world) : byte * world :=
  (entropy w (drawn w), {| entropy := entropy w; drawn := S (drawn w) |}).

(** [buffer[0] / 0xff].  The quotient is kept exact; the double the
    source computes differs from it by one rounding, which the floor in
    [randomChar] absorbs: [32 * b / 255] is an integer only for [b = 0]
    and [b = 255], where the division is exact, and otherwise lies at
    least [1/255] away from the integers. *)
Definition webCryptoPRNG (w : world) : Q * world :=
  let (b, w') := getRandomValues w in
  (Z.of_N (Byte.to_N b) # 255, w').

Definition randomChar (w : world) : string * world :=
  let (x, w') := webCryptoPRNG w in
  let rand := Qfloor (x * inject_Z ENCODING_LEN) in
  let rand := if rand =? ENCODING_LEN then ENCODING_LEN - 1 else rand in
  (charAt ENCODING rand, w').

Fixpoint encodeRandom_loop (len : nat) (str : string) (w : world) : string * world :=
  match len with
  | O => (str, w)
  | S len' =>
      let (c, w') := randomChar w in
      encodeRandom_loop len' (c ++ str) w'
  end.

Definition encodeRandom (len : nat) (w : world) : string * world :=
  encodeRandom_loop len "" w.

(** ** encodeTime *)

(** The loop runs on the integer the validated timestamp stands for;
    [%] is the truncating remainder and [(timestamp - mod) / 32] is an
    exact division. *)
Fixpoint encodeTime_loop (currentLen : nat) (timestamp : Z) (str : string) : string :=
  match currentLen with
  | O => str
  | S currentLen' =>
      let mod' := Z.rem timestamp ENCODING_LEN in
      encodeTime_loop currentLen' ((timestamp - mod') / ENCODING_LEN)
        (charAt ENCODING mod' ++ str)
  end.

Definition encodeTime (timestamp : number) (len : nat) : result string :=
  validateTimestamp timestamp ;;;
  Ok (encodeTime_loop len (to_Z timestamp) "").

(** ** incrementBase32 *)

Definition replaceCharAt (str : string) (index : Z) (char : string) : string :=
  if index >? Z.of_nat (String.length str) - 1 then str
  else substr str 0 (Some index) ++ char ++ substr str (index + 1) None.

(** [!done] is false exactly on a non-empty string. *)
Definition str_truthy (done : option string) : bool :=
  match done with
  | Some (String _ _) => true
  | _ => false
  end.

(** The [while (!done && index-- >= 0)] loop, one unfolding per test of
    the loop condition.  [budget] bounds the number of tests;
    [incrementBase32] supplies [str.length + 2], which is never used up
    (lemmas [incrementBase32_loop_scan] and [incrementBase32_dead_errors]). *)
Fixpoint incrementBase32_loop (budget : nat) (done : option string)
    (index : Z) (output : string) : result string :=
  match budget with
  | O => Err ErrLoopBudget
  | S budget' =>
      if negb (str_truthy done) && (index >=? 0) then
        let index := index - 1 in
        let char := js_index output index in
        let charIndex := ENCODING_indexOf char in
        if charIndex =? -1 then Err ErrIncorrectlyEncoded
        else if charIndex =? ENCODING_LEN - 1 then
          incrementBase32_loop budget' done index
            (replaceCharAt output index (js_str (js_index ENCODING 0)))
        else
          incrementBase32_loop budget'
            (Some (replaceCharAt output index (js_str (js_index ENCODING (charIndex + 1)))))
            index output
      else
        match done with
        | Some d => Ok d
        | None => Err ErrFailedIncrementing
        end
  end.

Definition incrementBase32 (str : string) : result string :=
  if (RANDOM_LEN <? String.length str)%nat then Err ErrTooLong
  else if String.eqb str (js_repeat "Z" RANDOM_LEN) then Err ErrMaximum
  else incrementBase32_loop (String.length str + 2) None
         (Z.of_nat (String.length str)) str.

(** ** decodeTime *)

(** The value is a sum of at most ten products below [32^10 < 2^53], so
    the double arithmetic of the source is exact and the result is kept
    as an integer. *)
Definition decodeTime (id : string) : result Z :=
  if negb (String.length id =? TIME_LEN + RANDOM_LEN)%nat then Err ErrMalformed
  else
    time <- reduce
              (fun (carry : Z) (char : ascii) (index : Z) =>
                 let encodingIndex := ENCODING_indexOf (Some char) in
                 if encodingIndex =? -1 then Err (ErrInvalidCharacter char)
                 else Ok (carry + encodingIndex * ENCODING_LEN ^ index))
              (rev (list_ascii_of_string (substr id 0 (Some (Z.of_nat TIME_LEN)))))
              0 ;;
    if time >? TIME_MAX then Err ErrTimestampTooLarge else Ok time.

(** ** ulidFactory *)

(** One call of a generated function: the optional argument and the
    value [Date.now()] has when the call is made. *)
Record call : Type := { timestamp : option number; Date_now : Z }.

(** [timestamp || Date.now()]: the argument when it is truthy. *)
Definition timestampOrNow (c : call) : number :=
  match timestamp c with
  | Some t => if num_truthy t then t else of_Z (Date_now c)
  | None => of_Z (Date_now c)
  end.

(** The variables the monotonic closure captures; [lastRandom] is
    declared without a value, hence [undefined] at first. *)
Record closure : Type := { lastTime : number; lastRandom : option string }.

(** A generated function: the monotonic closure with its captured
    variables, or the stateless one. *)
Inductive ULIDFactory : Type :=
| Monotonic (vars : closure)
| NonMonotonic.

(** [args?.monotonic ?? true]: [None] stands for an absent argument or
    an absent field. *)
Definition ulidFactory (monotonic : option bool) : ULIDFactory :=
  match monotonic with
  | Some false => NonMonotonic
  | _ => Monotonic {| lastTime := of_Z 0; lastRandom := None |}
  end.

(** [incrementBase32(lastRandom)]: reading [str.length] throws when
    [lastRandom] is still [undefined]. *)
Definition incrementBase32_var (str : option string) : result string :=
  match str with
  | Some s => incrementBase32 s
  | None => Err ErrUndefinedLength
  end.

(** One call of the monotonic closure.  The captured variables are
    written exactly where the source assigns them, so a call that throws
    before an assignment leaves them as they were. *)
Definition monotonic_call (vars : closure) (w : world) (c : call)
    : result string * closure * world :=
  let t := timestampOrNow c in
  match validateTimestamp t with
  | Err e => (Err e, vars, w)
  | Ok _ =>
      if num_gt t (lastTime vars) then
        let (random, w') := encodeRandom RANDOM_LEN w in
        (time <- encodeTime t TIME_LEN ;; Ok (time ++ random),
         {| lastTime := t; lastRandom := Some random |}, w')
      else
        match incrementBase32_var (lastRandom vars) with
        | Err e => (Err e, vars, w)
        | Ok random =>
            (time <- encodeTime (lastTime vars) TIME_LEN ;; Ok (time ++ random),
             {| lastTime := lastTime vars; lastRandom := Some random |}, w)
        end
  end.

(** One call of the stateless function; [encodeTime] is the left
    operand of [+] and runs before [encodeRandom]. *)
Definition nonmonotonic_call (w : world) (c : call) : result string * world :=
  let t := timestampOrNow c in
  match validateTimestamp t with
  | Err e => (Err e, w)
  | Ok _ =>
      match encodeTime t TIME_LEN with
      | Err e => (Err e, w)
      | Ok time =>
          let (random, w') := encodeRandom RANDOM_LEN w in
          (Ok (time ++ random), w')
      end
  end.

Definition generate (f : ULIDFactory) (w : world) (c : call)
    : result string * ULIDFactory * world :=
  match f with
  | Monotonic vars =>
      let '(r, vars', w') := monotonic_call vars w c in (r, Monotonic vars', w')
  | NonMonotonic =>
      let (r, w') := nonmonotonic_call w c in (r, NonMonotonic, w')
  end.

(** A sequence of calls on one generated function, results in call order. *)
Fixpoint run (f : ULIDFactory) (w : world) (calls : list call)
    : list (result string) * ULIDFactory * world :=
  match calls with
  | [] => ([], f, w)
  | c :: calls' =>
      let '(r, f', w') := generate f w c in
      let '(rs, f'', w'') := run f' w' calls' in
      (r :: rs, f'', w'')
  end.

Definition zero_bytes : world := {| entropy := fun _ => x00; drawn := 0 |}.

Definition explicit (t : Z) (now : Z) : call :=
  {| timestamp := Some (of_Z t); Date_now := now |}.

(** ** Well-formed Base32 strings and their numeric value *)

Definition is_base32 (c : ascii) : bool :=
  negb (ENCODING_indexOf (Some c) =? -1).

Fixpoint all_base32 (s : string) : bool :=
  match s with
  | "" => true
  | String c s' => is_base32 c && all_base32 s'
  end.

(** The number a string of Base32 digits denotes, most significant digit
    first. *)
Fixpoint base32_value (s : string) : Z :=
  match s with
  | "" => 0
  | String c s' =>
      ENCODING_indexOf (Some c) * ENCODING_LEN ^ Z.of_nat (String.length s')
      + base32_value s'
  end.

(** Strict lexicographic order on strings, as JavaScript's [<]. *)
Definition lex_lt (s t : string) : Prop := String.ltb s t = true.

(** The expression [decodeTime] evaluates on the first ten characters. *)
Definition decode_digits (s : string) : result Z :=
  reduce
    (fun (carry : Z) (char : ascii) (index : Z) =>
       let encodingIndex := ENCODING_indexOf (Some char) in
       if encodingIndex =? -1 then Err (ErrInvalidCharacter char)
       else Ok (carry + encodingIndex * ENCODING_LEN ^ index))
    (rev (list_ascii_of_string s)) 0.

(** The strings a run emitted, in call order. *)
Fixpoint emitted (rs : list (result string)) : list string :=
  match rs with
  | [] => []
  | Ok id :: rs' => id :: emitted rs'
  | Err _ :: rs' => emitted rs'
  end.

(** The loop of [incrementBase32] read as a recursion on the value
    [index] has when the loop condition is tested. *)
Fixpoint scan (output : string) (index : nat) : result string :=
  match index with
  | O => Err ErrIncorrectlyEncoded
  | S k =>
      let charIndex := ENCODING_indexOf (String.get k output) in
      if charIndex =? -1 then Err ErrIncorrectlyEncoded
      else if charIndex =? ENCODING_LEN - 1 then
        scan (replaceCharAt output (Z.of_nat k) "0") k
      else Ok (replaceCharAt output (Z.of_nat k)
                 (js_str (js_index ENCODING (charIndex + 1))))
  end.

(** ** Vocabulary of the statements *)

(** Every character, for facts checked character by character. *)
Definition all_ascii : list ascii := map ascii_of_nat (seq 0 256).

(** The world after one byte was drawn. *)
Definition advance (w : world) : world :=
  {| entropy := entropy w; drawn := S (drawn w) |}.

(** The decoder in the specification's words: read the string most
    significant digit first, accumulating [sum = sum * 32 + digit], and
    fail on the first character outside the alphabet. *)
Fixpoint decode_integer_from (sum : Z) (s : string) : result Z :=
  match s with
  | "" => Ok sum
  | String c s' =>
      if is_base32 c
      then decode_integer_from (sum * 32 + ENCODING_indexOf (Some c)) s'
      else Err (ErrInvalidCharacter c)
  end.

Definition decode_integer (s : string) : result Z := decode_integer_from 0 s.

(** What every call preserves: [lastTime] is a valid timestamp and
    [lastRandom], once assigned, is a well-formed random field. *)
Definition consistent (vars : closure) : Prop :=
  validateTimestamp (lastTime vars) = Ok tt
  /\ match lastRandom vars with
     | None => True
     | Some random => String.length random = RANDOM_LEN /\ all_base32 random = true
     end.

(** The number the last emitted identifier denotes; [-1] before the
    first one. *)
Definition last_value (vars : closure) : Z :=
  match lastRandom vars with
  | None => -1
  | Some random =>
      to_Z (lastTime vars) * 32 ^ Z.of_nat RANDOM_LEN + base32_value random
  end.

Definition ulid_shaped (id : string) : Prop :=
  String.length id = (TIME_LEN + RANDOM_LEN)%nat /\ all_base32 id = true.

(** The closure states in which an identifier has already been emitted. *)
Definition after_success (vars : closure) : Prop :=
  exists w calls rs w',
    run (ulidFactory None) w calls = (rs, Monotonic vars, w') /\ emitted rs <> [].

(** Boolean tests on integers turned into the facts [lia] reads. *)
Ltac zbool :=
  repeat match goal with
  | H : (_ && _)%bool = true |- _ => apply andb_true_iff in H; destruct H
  | H : (_ <=? _) = true |- _ => apply Z.leb_le in H
  | H : (_ <? _) = true |- _ => apply Z.ltb_lt in H
  | H : (_ =? _) = true |- _ => apply Z.eqb_eq in H
  | H : (_ >? _) = true |- _ => apply Z.gtb_lt in H
  | H : (_ <=? _) = false |- _ => apply Z.leb_gt in H
  | H : (_ <? _) = false |- _ => apply Z.ltb_ge in H
  | H : (_ =? _) = false |- _ => apply Z.eqb_neq in H
  | H : negb _ = true |- _ => apply negb_true_iff in H
  | H : negb _ = false |- _ => apply negb_false_iff in H
  end.

(** ** The first version of the library, [src/ulid.ts] before the fork

    [decodeTime], [encodeRandom], [randomChar], [replaceCharAt] and
    [webCryptoPRNG] read there as they do in the current file and are
    not repeated.  [encodeTime] carries the timestamp checks itself,
    worded "Time must be ..."; each is filed under the constructor of the
    same check.  [incrementBase32] is the bare loop, without the two
    guards, and the generators are [monotonicFactory], which reads the
    clock only, and [ulid]. *)

(** [a <= b]; false when either side is [NaN]. *)
Definition num_le (a b : number) : bool :=
  match a, b with
  | NaN, _ | _, NaN => false
  | Infinity true, _ => true
  | _, Infinity false => true
  | Infinity false, _ => false
  | _, Infinity true => false
  | Finite x, Finite y => Qle_bool x y
  end.

Module Legacy.

Definition encodeTime (now : number) (len : nat) : result string :=
  if isNaN now then Err ErrNotANumber
  else if num_gt now (of_Z TIME_MAX) then Err ErrTooLarge
  else if num_lt now (of_Z 0) then Err ErrNegative
  else if negb (Number_isInteger now) then Err ErrNotInteger
  else Ok (encodeTime_loop len (to_Z now) "").

Definition incrementBase32 (str : string) : result string :=
  incrementBase32_loop (String.length str + 2) None
    (Z.of_nat (String.length str)) str.

(** [incrementBase32(lastRandom)] while [lastRandom] may be [undefined]. *)
Definition incrementBase32_var (str : option string) : result string :=
  match str with
  | Some s => incrementBase32 s
  | None => Err ErrUndefinedLength
  end.

(** One call of the function [monotonicFactory] returns; [now] is the
    value of [Date.now()].  Both branches assign the captured variables
    before [encodeTime] runs. *)
Definition monotonic_call (vars : closure) (w : world) (now : Z)
    : result string * closure * world :=
  let seed := of_Z now in
  if num_le seed (lastTime vars) then
    match incrementBase32_var (lastRandom vars) with
    | Err e => (Err e, vars, w)
    | Ok incrementedRandom =>
        (time <- encodeTime (lastTime vars) TIME_LEN ;; Ok (time ++ incrementedRandom),
         {| lastTime := lastTime vars; lastRandom := Some incrementedRandom |}, w)
    end
  else
    let (newRandom, w') := encodeRandom RANDOM_LEN w in
    (time <- encodeTime seed TIME_LEN ;; Ok (time ++ newRandom),
     {| lastTime := seed; lastRandom := Some newRandom |}, w').

Definition monotonicFactory : closure :=
  {| lastTime := of_Z 0; lastRandom := None |}.

(** A sequence of calls, one clock reading each. *)
Fixpoint monotonic_run (vars : closure) (w : world) (clock : list Z)
    : list (result string) * closure * world :=
  match clock with
  | [] => ([], vars, w)
  | now :: clock' =>
      let '(r, vars', w') := monotonic_call vars w now in
      let '(rs, vars'', w'') := monotonic_run vars' w' clock' in
      (r :: rs, vars'', w'')
  end.

(** [ulid(seedTime)]: [isNaN(undefined)] is true, so an absent seed
    and a [NaN] seed both read the clock. *)
Definition ulid (seedTime : option number) (now : Z) (w : world)
    : result string * world :=
  let seed :=
    match seedTime with
    | Some t => if isNaN t then of_Z now else t
    | None => of_Z now
    end in
  match encodeTime seed TIME_LEN with
  | Err e => (Err e, w)
  | Ok time =>
      let (random, w') := encodeRandom RANDOM_LEN w in
      (Ok (time ++ random), w')
  end.

End Legacy.

(** ** Further vocabulary *)

(** The world after [n] bytes were drawn. *)
Definition advance_by (n : nat) (w : world) : world :=
  {| entropy := entropy w; drawn := n + drawn w |}.

(** The byte as a number. *)
Definition byte_value (b : byte) : Z := Z.of_N (Byte.to_N b).

(** [incrementBase32] applied [n] times, stopping at the first error. *)
Fixpoint increment_times (n : nat) (s : string) : result string :=
  match n with
  | O => Ok s
  | S n' => s' <- incrementBase32 s ;; increment_times n' s'
  end.

(** The rightmost character of [s] outside the alphabet. *)
Fixpoint last_invalid (s : string) : option ascii :=
  match s with
  | "" => None
  | String c s' =>
      match last_invalid s' with
      | Some d => Some d
      | None => if is_base32 c then None else Some c
      end
  end.

(** A closure whose [lastTime] lies beyond the largest timestamp. *)
Definition beyond_range (vars : closure) : Prop :=
  exists z, lastTime vars = of_Z z /\ TIME_MAX < z.

Definition absent (now : Z) : call := {| timestamp := None; Date_now := now |}.

(** What every call of the first version's monotonic generator
    preserves: [lastTime] is a clock reading, not negative but possibly
    beyond the range, and [lastRandom], once assigned, is a well-formed
    random field. *)
Definition legacy_consistent (vars : closure) : Prop :=
  (exists z, lastTime vars = of_Z z /\ 0 <= z)
  /\ match lastRandom vars with
     | None => True
     | Some random => String.length random = RANDOM_LEN /\ all_base32 random = true
     end.

(** * Properties *)

(** ** Characters *)

Lemma all_ascii_complete (c : ascii) : In c all_ascii.
Proof.
  unfold all_ascii. rewrite <- (ascii_nat_embedding c).
  apply in_map, in_seq. pose proof (nat_ascii_bounded c). lia.
Qed.

Lemma ascii_forall (P : ascii -> bool) :
  forallb P all_ascii = true -> forall c, P c = true.
Proof.
  intros H c. rewrite forallb_forall in H. apply H, all_ascii_complete.
Qed.

Lemma indexOf_range (c : ascii) :
  is_base32 c = true -> 0 <= ENCODING_indexOf (Some c) < 32.
Proof.
  revert c.
  assert (H : forall c, implb (is_base32 c)
                ((0 <=? ENCODING_indexOf (Some c)) && (ENCODING_indexOf (Some c) <? 32)) = true).
  { apply ascii_forall. vm_compute. reflexivity. }
  intros c Hc. specialize (H c). rewrite Hc in H. cbn [implb] in H.
  zbool. lia.
Qed.

(** Looking up the position [indexOf] returned gives the character back. *)
Lemma index_indexOf (c : ascii) :
  is_base32 c = true -> js_index ENCODING (ENCODING_indexOf (Some c)) = Some c.
Proof.
  revert c.
  assert (H : forall c, implb (is_base32 c)
                match js_index ENCODING (ENCODING_indexOf (Some c)) with
                | Some d => Ascii.eqb d c
                | None => false
                end = true).
  { apply ascii_forall. vm_compute. reflexivity. }
  intros c Hc. specialize (H c). rewrite Hc in H. cbn [implb] in H.
  destruct (js_index ENCODING _) as [d|]; [|discriminate].
  apply Ascii.eqb_eq in H. now subst.
Qed.

(** Every position below 32 holds a character, and [indexOf] finds it
    there: the alphabet has no repeated symbol. *)
Lemma indexOf_index (k : Z) :
  0 <= k < 32 ->
  exists c, js_index ENCODING k = Some c /\ ENCODING_indexOf (Some c) = k
            /\ is_base32 c = true.
Proof.
  intros Hk.
  assert (H : forallb (fun n =>
                match js_index ENCODING (Z.of_nat n) with
                | Some c => (ENCODING_indexOf (Some c) =? Z.of_nat n) && is_base32 c
                | None => false
                end) (seq 0 32) = true) by (vm_compute; reflexivity).
  rewrite forallb_forall in H.
  specialize (H (Z.to_nat k)). rewrite Z2Nat.id in H by lia.
  destruct (js_index ENCODING k) as [c|].
  - exists c. assert (Hin : In (Z.to_nat k) (seq 0 32)) by (apply in_seq; lia).
    apply H in Hin. zbool. auto.
  - assert (Hin : In (Z.to_nat k) (seq 0 32)) by (apply in_seq; lia).
    apply H in Hin. discriminate.
Qed.

(** The alphabet is listed in increasing character order. *)
Lemma ascii_compare_indexOf (c d : ascii) :
  is_base32 c = true -> is_base32 d = true ->
  Ascii.compare c d = (ENCODING_indexOf (Some c) ?= ENCODING_indexOf (Some d)).
Proof.
  revert c d.
  assert (H : forall c, forallb (fun d =>
                implb (is_base32 c && is_base32 d)
                  match Ascii.compare c d,
                        (ENCODING_indexOf (Some c) ?= ENCODING_indexOf (Some d)) with
                  | Eq, Eq | Lt, Lt | Gt, Gt => true
                  | _, _ => false
                  end) all_ascii = true).
  { apply ascii_forall. vm_compute. reflexivity. }
  intros c d Hc Hd. specialize (H c). rewrite forallb_forall in H.
  specialize (H d (all_ascii_complete d)). rewrite Hc, Hd in H. cbn [implb andb] in H.
  destruct (Ascii.compare c d), (_ ?= _); congruence.
Qed.

(** ** Strings *)

Lemma length_app (s t : string) :
  String.length (s ++ t) = (String.length s + String.length t)%nat.
Proof. induction s as [|c s IH]; cbn; [reflexivity | now rewrite IH]. Qed.

Lemma app_assoc (s t u : string) : (s ++ t) ++ u = s ++ (t ++ u).
Proof. induction s as [|c s IH]; cbn; [reflexivity | now rewrite IH]. Qed.

Lemma app_empty_r (s : string) : s ++ "" = s.
Proof. induction s as [|c s IH]; cbn; [reflexivity | now rewrite IH]. Qed.

Lemma all_base32_app (s t : string) :
  all_base32 (s ++ t) = all_base32 s && all_base32 t.
Proof.
  induction s as [|c s IH]; cbn [append all_base32]; [reflexivity|].
  now rewrite IH, andb_assoc.
Qed.

Lemma pow32_pos (n : nat) : 0 < 32 ^ Z.of_nat n.
Proof. apply Z.pow_pos_nonneg; lia. Qed.

Lemma pow32_succ (n : nat) : 32 ^ Z.of_nat (S n) = 32 * 32 ^ Z.of_nat n.
Proof. rewrite Nat2Z.inj_succ, Z.pow_succ_r by lia. reflexivity. Qed.

Lemma base32_value_app (s t : string) :
  base32_value (s ++ t)
  = base32_value s * 32 ^ Z.of_nat (String.length t) + base32_value t.
Proof.
  induction s as [|c s IH]; cbn [append base32_value]; [lia|].
  rewrite IH, length_app, Nat2Z.inj_add, Z.pow_add_r by lia.
  change ENCODING_LEN with 32. ring.
Qed.

Lemma base32_value_bound (s : string) :
  all_base32 s = true -> 0 <= base32_value s < 32 ^ Z.of_nat (String.length s).
Proof.
  induction s as [|c s IH]; cbn [all_base32 base32_value String.length].
  - intros _. cbn. lia.
  - intros H. apply andb_true_iff in H as [Hc Hs].
    specialize (IH Hs). pose proof (indexOf_range c Hc) as Hr.
    change ENCODING_LEN with 32. rewrite pow32_succ.
    pose proof (pow32_pos (String.length s)). nia.
Qed.

(** On well-formed strings of one length the lexicographic order is the
    numeric one. *)
Lemma compare_base32_value (s t : string) :
  String.length s = String.length t ->
  all_base32 s = true -> all_base32 t = true ->
  String.compare s t = (base32_value s ?= base32_value t).
Proof.
  revert t. induction s as [|c s IH]; intros [|d t] Hlen Hs Ht;
    try discriminate Hlen.
  - reflexivity.
  - cbn [all_base32] in Hs, Ht.
    apply andb_true_iff in Hs as [Hc Hs]. apply andb_true_iff in Ht as [Hd Ht].
    injection Hlen as Hlen.
    cbn [String.compare base32_value]. rewrite <- Hlen.
    rewrite (ascii_compare_indexOf c d Hc Hd).
    pose proof (indexOf_range c Hc). pose proof (indexOf_range d Hd).
    pose proof (base32_value_bound s Hs) as Bs.
    pose proof (base32_value_bound t Ht) as Bt. rewrite <- Hlen in Bt.
    change ENCODING_LEN with 32.
    set (p := 32 ^ Z.of_nat (String.length s)) in *.
    destruct (Z.compare_spec (ENCODING_indexOf (Some c)) (ENCODING_indexOf (Some d)))
      as [E|L|G].
    + rewrite E, (IH t Hlen Hs Ht).
      destruct (Z.compare_spec (base32_value s) (base32_value t));
        symmetry; [apply Z.compare_eq_iff | apply Z.compare_lt_iff | apply Z.compare_gt_iff]; lia.
    + symmetry. apply Z.compare_lt_iff. nia.
    + symmetry. apply Z.compare_gt_iff. nia.
Qed.

Lemma lex_lt_base32_value (s t : string) :
  String.length s = String.length t ->
  all_base32 s = true -> all_base32 t = true ->
  (lex_lt s t <-> base32_value s < base32_value t).
Proof.
  intros Hlen Hs Ht. unfold lex_lt, String.ltb.
  rewrite (compare_base32_value s t Hlen Hs Ht), <- Z.compare_lt_iff.
  destruct (_ ?= _); split; congruence.
Qed.

Lemma base32_value_inj (s t : string) :
  String.length s = String.length t ->
  all_base32 s = true -> all_base32 t = true ->
  base32_value s = base32_value t -> s = t.
Proof.
  intros Hlen Hs Ht E. apply String.compare_eq_iff.
  rewrite (compare_base32_value s t Hlen Hs Ht). now apply Z.compare_eq_iff.
Qed.

(** Strings are built from the left; induction from the right. *)
Lemma string_snoc_ind (P : string -> Prop) :
  P "" -> (forall s c, P s -> P (s ++ String c "")) -> forall s, P s.
Proof.
  intros H0 HS s. rewrite <- (string_of_list_ascii_of_string s).
  induction (list_ascii_of_string s) as [|c l IH] using rev_ind; [exact H0|].
  replace (string_of_list_ascii (l ++ [c])%list)
    with (string_of_list_ascii l ++ String c "").
  - apply HS, IH.
  - clear. induction l as [|d l IH]; cbn; [reflexivity | now rewrite IH].
Qed.

Lemma get_app_length (p t : string) (c : ascii) :
  String.get (String.length p) (p ++ String c t) = Some c.
Proof. induction p as [|d p IH]; cbn; [reflexivity | exact IH]. Qed.

Lemma substring_app_length (p t : string) :
  substring 0 (String.length p) (p ++ t) = p.
Proof.
  induction p as [|d p IH]; cbn.
  - destruct t; reflexivity.
  - now rewrite IH.
Qed.

Lemma substring_all (s : string) : substring 0 (String.length s) s = s.
Proof. rewrite <- (app_empty_r s) at 2. apply substring_app_length. Qed.

Lemma substring_skip (p t : string) (m : nat) :
  substring (String.length p) m (p ++ t) = substring 0 m t.
Proof. induction p as [|d p IH]; cbn; [reflexivity | exact IH]. Qed.

Lemma replaceCharAt_app (p t : string) (c : ascii) (char : string) :
  replaceCharAt (p ++ String c t) (Z.of_nat (String.length p)) char
  = p ++ char ++ t.
Proof.
  unfold replaceCharAt, substr.
  rewrite length_app. cbn [String.length].
  destruct (Z.gtb_spec (Z.of_nat (String.length p))
              (Z.of_nat (String.length p + S (String.length t)) - 1)); [lia|].
  destruct (Z.ltb_spec 0 0); [lia|].
  destruct (Z.ltb_spec (Z.of_nat (String.length p) + 1) 0); [lia|].
  rewrite Nat2Z.id. change (Z.to_nat 0) with 0%nat.
  rewrite substring_app_length.
  replace (Z.to_nat (Z.of_nat (String.length p) + 1)) with (S (String.length p)) by lia.
  replace (String.length p + S (String.length t) - S (String.length p))%nat
    with (String.length t) by lia.
  replace (p ++ String c t) with ((p ++ String c "") ++ t)
    by (rewrite app_assoc; reflexivity).
  replace (S (String.length p)) with (String.length (p ++ String c ""))
    by (rewrite length_app; cbn; lia).
  rewrite substring_skip, substring_all. reflexivity.
Qed.

(** ** incrementBase32: the loop *)

Lemma get_split (s : string) (k : nat) (c : ascii) :
  String.get k s = Some c ->
  exists p t, s = p ++ String c t /\ String.length p = k.
Proof.
  revert k. induction s as [|d s IH]; intros k H; [discriminate|].
  destruct k as [|k].
  - cbn in H. injection H as ->. now exists "", s.
  - cbn in H. destruct (IH k H) as (p & t & -> & Hp).
    exists (String d p), t. cbn. now rewrite Hp.
Qed.

Lemma app_cons_truthy (p t : string) (c : ascii) :
  str_truthy (Some (p ++ String c t)) = true.
Proof. destruct p; reflexivity. Qed.

Lemma js_str_cons (o : option ascii) : exists c t, js_str o = String c t.
Proof. destruct o as [c|]; cbn; eauto. Qed.

(** The budget [incrementBase32] supplies is never used up: the loop is
    the recursion [scan]. *)
Lemma incrementBase32_loop_scan (index budget : nat) (output : string) :
  (index + 2 <= budget)%nat ->
  incrementBase32_loop budget None (Z.of_nat index) output = scan output index.
Proof.
  revert budget output. induction index as [|k IH]; intros budget output Hb.
  - destruct budget as [|budget]; [lia|]. reflexivity.
  - destruct budget as [|budget]; [lia|].
    cbn [incrementBase32_loop scan str_truthy negb andb].
    destruct (Z.geb_spec (Z.of_nat (S k)) 0); [|lia].
    replace (Z.of_nat (S k) - 1) with (Z.of_nat k) by lia.
    assert (Hget : js_index output (Z.of_nat k) = String.get k output).
    { unfold js_index. destruct (Z.ltb_spec (Z.of_nat k) 0); [lia|].
      now rewrite Nat2Z.id. }
    rewrite Hget.
    destruct (ENCODING_indexOf (String.get k output) =? -1) eqn:E1; [reflexivity|].
    destruct (ENCODING_indexOf (String.get k output) =? ENCODING_LEN - 1) eqn:E2.
    + apply IH. lia.
    + destruct (String.get k output) as [c|] eqn:G; [|discriminate E1].
      destruct (get_split _ _ _ G) as (p & t & -> & <-).
      rewrite replaceCharAt_app.
      destruct (js_str_cons (js_index ENCODING (ENCODING_indexOf (Some c) + 1)))
        as (c' & t' & ->).
      destruct budget as [|budget]; [lia|].
      cbn [incrementBase32_loop]. cbn [append].
      now rewrite app_cons_truthy.
Qed.

(** One step of the scan at the character that ends the prefix [p]. *)
Lemma scan_step (p t : string) (c : ascii) :
  scan (p ++ String c t) (S (String.length p))
  = if ENCODING_indexOf (Some c) =? -1 then Err ErrIncorrectlyEncoded
    else if ENCODING_indexOf (Some c) =? ENCODING_LEN - 1
         then scan (p ++ String "0" t) (String.length p)
         else Ok (p ++ js_str (js_index ENCODING (ENCODING_indexOf (Some c) + 1)) ++ t).
Proof.
  cbn [scan]. rewrite get_app_length, !replaceCharAt_app. reflexivity.
Qed.

Lemma js_repeat_snoc (c : ascii) (k : nat) :
  js_repeat (String c "") (S k) = js_repeat (String c "") k ++ String c "".
Proof. induction k as [|k IH]; [reflexivity|]. cbn in *. now rewrite IH. Qed.

Lemma length_js_repeat (c : ascii) (k : nat) :
  String.length (js_repeat (String c "") k) = k.
Proof. induction k as [|k IH]; cbn; [reflexivity | now rewrite IH]. Qed.

(** A run of trailing ['Z'] is turned into ['0'] and the scan goes on to
    the left of it. *)
Lemma scan_trailing_Z (k : nat) (p t : string) :
  scan (p ++ js_repeat "Z" k ++ t) (String.length p + k)
  = scan (p ++ js_repeat "0" k ++ t) (String.length p).
Proof.
  revert t. induction k as [|k IH]; intros t.
  - cbn [js_repeat append]. now rewrite Nat.add_0_r.
  - rewrite !js_repeat_snoc, !app_assoc. cbn [append].
    rewrite <- (app_assoc p).
    replace (String.length p + S k)%nat
      with (S (String.length (p ++ js_repeat "Z" k)))
      by (rewrite length_app, length_js_repeat; lia).
    rewrite scan_step. change (ENCODING_indexOf (Some "Z"%char)) with 31.
    change (31 =? -1) with false. change (31 =? ENCODING_LEN - 1) with true.
    cbn match. rewrite length_app, length_js_repeat, app_assoc. apply IH.
Qed.

(** On a well-formed prefix that is not all ['Z'] the scan adds one to the
    number the prefix denotes and touches nothing to its right. *)
Lemma scan_value (p : string) :
  forall t, all_base32 p = true ->
  base32_value p + 1 < 32 ^ Z.of_nat (String.length p) ->
  exists p', scan (p ++ t) (String.length p) = Ok (p' ++ t)
             /\ String.length p' = String.length p
             /\ all_base32 p' = true
             /\ base32_value p' = base32_value p + 1.
Proof.
  induction p as [|p c IH] using string_snoc_ind; intros t Hwf Hlt.
  - cbn in Hlt. lia.
  - rewrite all_base32_app in Hwf. cbn [all_base32] in Hwf.
    apply andb_true_iff in Hwf as [Hp Hc]. rewrite andb_true_r in Hc.
    rewrite base32_value_app in Hlt |- *. cbn [base32_value String.length] in Hlt |- *.
    rewrite length_app in Hlt |- *. cbn [String.length] in Hlt |- *.
    replace (String.length p + 1)%nat with (S (String.length p)) in * by lia.
    change (ENCODING_LEN ^ Z.of_nat 0) with 1 in *.
    change (32 ^ Z.of_nat 1) with 32 in *.
    rewrite pow32_succ in Hlt. rewrite app_assoc. cbn [append].
    rewrite scan_step.
    pose proof (indexOf_range c Hc) as Hr.
    destruct (Z.eqb_spec (ENCODING_indexOf (Some c)) (-1)); [lia|].
    change (ENCODING_LEN - 1) with 31.
    destruct (Z.eqb_spec (ENCODING_indexOf (Some c)) 31) as [E|NE].
    + destruct (IH (String "0" t) Hp) as (p' & Hscan & Hlen & Hwf' & Hval); [lia|].
      exists (p' ++ "0"). rewrite Hscan, app_assoc. cbn [append].
      split; [reflexivity|]. rewrite length_app, Hlen. cbn [String.length].
      split; [lia|]. rewrite all_base32_app, Hwf'. split; [reflexivity|].
      rewrite base32_value_app, Hval. cbn [base32_value String.length].
      change (ENCODING_indexOf (Some "0"%char)) with 0.
      change (32 ^ Z.of_nat 1) with 32. lia.
    + destruct (indexOf_index (ENCODING_indexOf (Some c) + 1)) as (c' & G & I & W); [lia|].
      exists (p ++ String c' ""). rewrite G. cbn [js_str]. rewrite app_assoc.
      cbn [append]. split; [reflexivity|].
      rewrite length_app. cbn [String.length]. split; [lia|].
      rewrite all_base32_app, Hp. cbn [all_base32]. rewrite W.
      split; [reflexivity|].
      rewrite base32_value_app. cbn [base32_value String.length]. rewrite I.
      change (ENCODING_LEN ^ Z.of_nat 0) with 1.
      change (32 ^ Z.of_nat 1) with 32. lia.
Qed.

Lemma all_base32_Z (k : nat) : all_base32 (js_repeat "Z" k) = true.
Proof. induction k as [|k IH]; [reflexivity|]. cbn in *. exact IH. Qed.

Lemma base32_value_Z (k : nat) :
  base32_value (js_repeat "Z" k) = 32 ^ Z.of_nat k - 1.
Proof.
  induction k as [|k IH]; [reflexivity|].
  rewrite js_repeat_snoc, base32_value_app, IH, pow32_succ.
  cbn [base32_value String.length].
  change (ENCODING_indexOf (Some "Z"%char)) with 31.
  change (ENCODING_LEN ^ Z.of_nat 0) with 1.
  change (32 ^ Z.of_nat 1) with 32. lia.
Qed.

(** Below the maximum of its width, in numbers. *)
Lemma below_maximum (s : string) :
  all_base32 s = true -> s <> js_repeat "Z" (String.length s) ->
  base32_value s + 1 < 32 ^ Z.of_nat (String.length s).
Proof.
  intros Hwf Hne. pose proof (base32_value_bound s Hwf) as B.
  destruct (Z.eq_dec (base32_value s) (32 ^ Z.of_nat (String.length s) - 1)) as [E|]; [|lia].
  exfalso. apply Hne. apply base32_value_inj; auto.
  - now rewrite length_js_repeat.
  - apply all_base32_Z.
  - now rewrite base32_value_Z.
Qed.

Lemma incrementBase32_scan (s : string) :
  (String.length s <= RANDOM_LEN)%nat -> s <> js_repeat "Z" RANDOM_LEN ->
  incrementBase32 s = scan s (String.length s).
Proof.
  intros Hlen Hne. unfold incrementBase32.
  destruct (Nat.ltb_spec RANDOM_LEN (String.length s)); [lia|].
  apply String.eqb_neq in Hne. rewrite Hne.
  apply incrementBase32_loop_scan. lia.
Qed.

Lemma scan_errors (index : nat) :
  forall output e, scan output index = Err e -> e = ErrIncorrectlyEncoded.
Proof.
  induction index as [|k IH]; intros output e; cbn [scan].
  - congruence.
  - destruct (_ =? -1); [congruence|].
    destruct (_ =? ENCODING_LEN - 1); [apply IH | discriminate].
Qed.

(** The loop budget is never used up, and the "Failed incrementing
    string" throw after the loop is never reached: the loop can only be
    left through a [throw] or with [done] set. *)
Lemma incrementBase32_dead_errors (s : string) :
  incrementBase32 s <> Err ErrLoopBudget
  /\ incrementBase32 s <> Err ErrFailedIncrementing.
Proof.
  assert (H : forall e, incrementBase32 s = Err e ->
                e = ErrTooLong \/ e = ErrMaximum \/ e = ErrIncorrectlyEncoded).
  { intros e. unfold incrementBase32.
    destruct (Nat.ltb_spec RANDOM_LEN (String.length s)); [intros [= <-]; auto|].
    destruct (String.eqb s (js_repeat "Z" RANDOM_LEN)); [intros [= <-]; auto|].
    rewrite incrementBase32_loop_scan by lia.
    intros E. apply scan_errors in E. auto. }
  split; intros E; destruct (H _ E) as [D|[D|D]]; discriminate D.
Qed.

(** [incrementBase32] on a well-formed string below the maximum of its
    width: the successor, of the same width. *)
Lemma incrementBase32_value (s : string) :
  (String.length s <= RANDOM_LEN)%nat -> all_base32 s = true ->
  s <> js_repeat "Z" (String.length s) ->
  exists s', incrementBase32 s = Ok s'
             /\ String.length s' = String.length s
             /\ all_base32 s' = true
             /\ base32_value s' = base32_value s + 1.
Proof.
  intros Hlen Hwf Hne.
  rewrite incrementBase32_scan; [|exact Hlen|].
  - destruct (scan_value s "" Hwf (below_maximum s Hwf Hne)) as (s' & H).
    rewrite !app_empty_r in H. now exists s'.
  - intros E. apply Hne. rewrite E at 2. now rewrite length_js_repeat.
Qed.

Lemma js_repeat_char (c d : ascii) (n : nat) (p t : string) :
  js_repeat (String c "") n = p ++ String d t -> d = c.
Proof.
  revert p. induction n as [|n IH]; intros p H.
  - destruct p; discriminate.
  - destruct p as [|e p]; cbn in H; injection H as E1 E2; [now subst|].
    exact (IH p E2).
Qed.

Lemma indexOf_last (c : ascii) :
  ENCODING_indexOf (Some c) = ENCODING_LEN - 1 -> c = "Z"%char.
Proof.
  intros E. assert (Hc : is_base32 c = true).
  { unfold is_base32. rewrite E. reflexivity. }
  pose proof (index_indexOf c Hc) as G. rewrite E in G.
  cbv in G. congruence.
Qed.

(** The scan of a string whose rightmost character other than ['Z'] is
    [c]: only [c] decides the outcome. *)
Lemma incrementBase32_rightmost (p : string) (c : ascii) (k : nat) :
  (String.length (p ++ String c (js_repeat "Z" k)) <= RANDOM_LEN)%nat ->
  c <> "Z"%char ->
  incrementBase32 (p ++ String c (js_repeat "Z" k))
  = if is_base32 c
    then Ok (p ++ js_str (js_index ENCODING (ENCODING_indexOf (Some c) + 1))
               ++ js_repeat "0" k)
    else Err ErrIncorrectlyEncoded.
Proof.
  intros Hlen Hc.
  rewrite incrementBase32_scan; [|exact Hlen|].
  2:{ intros E. symmetry in E. apply js_repeat_char in E. contradiction. }
  rewrite length_app. cbn [String.length]. rewrite length_js_repeat.
  replace (p ++ String c (js_repeat "Z" k))
    with ((p ++ String c "") ++ js_repeat "Z" k ++ "")
    by (rewrite app_assoc, app_empty_r; reflexivity).
  replace (String.length p + S k)%nat
    with (String.length (p ++ String c "") + k)%nat
    by (rewrite length_app; cbn; lia).
  rewrite scan_trailing_Z, app_assoc. cbn [append].
  rewrite length_app. cbn [String.length].
  replace (String.length p + 1)%nat with (S (String.length p)) by lia.
  rewrite scan_step, app_empty_r. unfold is_base32.
  destruct (ENCODING_indexOf (Some c) =? -1); [reflexivity|]. cbn [negb].
  destruct (Z.eqb_spec (ENCODING_indexOf (Some c)) (ENCODING_LEN - 1)) as [E|]; [|reflexivity].
  apply indexOf_last in E. contradiction.
Qed.

(** A string of ['Z'] shorter than the random field: the scan runs off
    the left end, reads [undefined] and reports a badly encoded string. *)
Lemma incrementBase32_short_maximum (k : nat) :
  (k < RANDOM_LEN)%nat ->
  incrementBase32 (js_repeat "Z" k) = Err ErrIncorrectlyEncoded.
Proof.
  intros Hk. rewrite incrementBase32_scan.
  - rewrite length_js_repeat.
    pose proof (scan_trailing_Z k "" "") as H. cbn [append String.length] in H.
    rewrite !app_empty_r in H. cbn [Nat.add] in H. rewrite H. reflexivity.
  - rewrite length_js_repeat. lia.
  - intros E. apply (f_equal String.length) in E.
    rewrite !length_js_repeat in E. lia.
Qed.

(** ** Numbers and validateTimestamp *)

Lemma Qlt_bool_iff (a b : Q) : Qlt_bool a b = true <-> (a < b)%Q.
Proof.
  unfold Qlt_bool. rewrite negb_true_iff. split.
  - intros H. apply Qnot_le_lt. intros L. apply Qle_bool_iff in L. congruence.
  - intros H. destruct (Qle_bool b a) eqn:E; [|reflexivity].
    apply Qle_bool_iff in E. exfalso. exact (Qlt_not_le _ _ H E).
Qed.

Lemma Qlt_bool_false_iff (a b : Q) : Qlt_bool a b = false <-> (b <= a)%Q.
Proof.
  unfold Qlt_bool. rewrite negb_false_iff. apply Qle_bool_iff.
Qed.

(** [Number.isInteger] holds exactly of the rationals that are integers,
    and then [to_Z] is that integer. *)
Lemma isInteger_floor (q : Q) :
  Number_isInteger (Finite q) = true <-> (q == inject_Z (Qfloor q))%Q.
Proof.
  destruct q as [n d]. unfold Number_isInteger, Qeq, inject_Z, Qfloor.
  cbn [Qnum Qden]. rewrite Z.eqb_eq, Z.mul_1_r. split.
  - intros H. rewrite Z.mul_comm. apply Z_div_exact_full_2; [lia | exact H].
  - intros H. rewrite H at 1. apply Z_mod_mult.
Qed.

(** What a successful validation establishes. *)
Lemma validateTimestamp_Ok (t : number) :
  validateTimestamp t = Ok tt <->
  exists q, t = Finite q /\ (q == inject_Z (to_Z t))%Q /\ 0 <= to_Z t <= TIME_MAX.
Proof.
  unfold validateTimestamp. destruct t as [|[|]|q]; cbn [isNaN num_gt num_lt of_Z].
  - split; [discriminate | intros (q & E & _); discriminate].
  - split; [discriminate | intros (q & E & _); discriminate].
  - split; [discriminate | intros (q & E & _); discriminate].
  - cbn [to_Z]. split.
    + destruct (Qlt_bool (inject_Z TIME_MAX) q) eqn:G; [discriminate|].
      destruct (Qlt_bool q (inject_Z 0)) eqn:L; [discriminate|].
      destruct (Number_isInteger (Finite q)) eqn:I; [|discriminate].
      intros _. apply Qlt_bool_false_iff in G, L. apply isInteger_floor in I.
      exists q. split; [reflexivity|]. split; [exact I|].
      rewrite I in G, L. rewrite <- Zle_Qle in G, L. lia.
    + intros (q' & E & I & B). injection E as <-.
      assert (J : Number_isInteger (Finite q) = true) by now apply isInteger_floor.
      assert (G' : Qlt_bool (inject_Z TIME_MAX) q = false).
      { apply Qlt_bool_false_iff. rewrite I. rewrite <- Zle_Qle. lia. }
      assert (L' : Qlt_bool q (inject_Z 0) = false).
      { apply Qlt_bool_false_iff. rewrite I. rewrite <- Zle_Qle. lia. }
      rewrite G', L', J. reflexivity.
Qed.

Lemma to_Z_of_Z (z : Z) : to_Z (of_Z z) = z.
Proof. apply Qfloor_Z. Qed.

Lemma validateTimestamp_of_Z (z : Z) :
  0 <= z <= TIME_MAX -> validateTimestamp (of_Z z) = Ok tt.
Proof.
  intros H. apply validateTimestamp_Ok. exists (inject_Z z).
  rewrite to_Z_of_Z. repeat split; try reflexivity; lia.
Qed.

(** On validated numbers [>] is the order of the integers. *)
Lemma num_gt_valid (a b : number) :
  validateTimestamp a = Ok tt -> validateTimestamp b = Ok tt ->
  num_gt a b = (to_Z b <? to_Z a).
Proof.
  intros Ha Hb. apply validateTimestamp_Ok in Ha as (x & -> & Ex & _).
  apply validateTimestamp_Ok in Hb as (y & -> & Ey & _).
  cbn [num_gt]. cbn [to_Z] in *.
  destruct (Z.ltb_spec (Qfloor y) (Qfloor x)) as [L|L].
  - apply Qlt_bool_iff. rewrite Ex, Ey. now rewrite <- Zlt_Qlt.
  - apply Qlt_bool_false_iff. rewrite Ex, Ey. now rewrite <- Zle_Qle.
Qed.

(** C8. [validateTimestamp] rejects a value that is not a number with the
    "must be a number" error (TypeError); every value above [2^48 - 1],
    infinity included, with the "larger than 2^48 - 1" error (RangeError);
    every negative value, negative infinity included, with the "must be
    positive" error (RangeError); every value of [[0, 2^48 - 1]] that has a
    fractional part with the "must be an integer" error (ValueError); no
    value with a fractional part is accepted; the four errors are pairwise
    different; and every integer of [[0, 2^48 - 1]] passes, returning
    nothing. *)
Theorem validateTimestamp_classes :
  validateTimestamp NaN = Err ErrNotANumber
  /\ validateTimestamp (Infinity false) = Err ErrTooLarge
  /\ (forall q, (inject_Z TIME_MAX < q)%Q ->
        validateTimestamp (Finite q) = Err ErrTooLarge)
  /\ validateTimestamp (Infinity true) = Err ErrNegative
  /\ (forall q, (q < 0)%Q -> validateTimestamp (Finite q) = Err ErrNegative)
  /\ (forall q, (0 <= q)%Q -> (q <= inject_Z TIME_MAX)%Q ->
        ~ (exists z, (q == inject_Z z)%Q) ->
        validateTimestamp (Finite q) = Err ErrNotInteger)
  /\ (forall q, ~ (exists z, (q == inject_Z z)%Q) ->
        is_ok (validateTimestamp (Finite q)) = false)
  /\ (forall z, 0 <= z <= TIME_MAX -> validateTimestamp (of_Z z) = Ok tt)
  /\ (error_kind ErrNotANumber = TypeError
      /\ error_kind ErrTooLarge = RangeError
      /\ error_kind ErrNegative = RangeError
      /\ error_kind ErrNotInteger = ValueError)
  /\ (ErrNotANumber <> ErrTooLarge /\ ErrNotANumber <> ErrNegative
      /\ ErrNotANumber <> ErrNotInteger /\ ErrTooLarge <> ErrNegative
      /\ ErrTooLarge <> ErrNotInteger /\ ErrNegative <> ErrNotInteger).
Proof.
  assert (NI : forall q, ~ (exists z, (q == inject_Z z)%Q) ->
                 Number_isInteger (Finite q) = false).
  { intros q H. destruct (Number_isInteger (Finite q)) eqn:I; [|reflexivity].
    exfalso. apply H. exists (Qfloor q). now apply isInteger_floor. }
  repeat split; try reflexivity; try discriminate.
  - intros q H. unfold validateTimestamp. cbn [isNaN num_gt of_Z].
    apply Qlt_bool_iff in H. now rewrite H.
  - intros q H. unfold validateTimestamp. cbn [isNaN num_gt num_lt of_Z].
    destruct (Qlt_bool (inject_Z TIME_MAX) q) eqn:G.
    + apply Qlt_bool_iff in G. exfalso.
      apply (Qlt_irrefl 0). apply Qlt_trans with q; [|exact H].
      apply Qlt_trans with (inject_Z TIME_MAX); [reflexivity | exact G].
    + apply Qlt_bool_iff in H. change (inject_Z 0) with 0%Q. now rewrite H.
  - intros q H0 HM Hq. unfold validateTimestamp. cbn [isNaN num_gt num_lt of_Z].
    apply Qlt_bool_false_iff in HM. rewrite HM.
    assert (L : Qlt_bool q (inject_Z 0) = false) by now apply Qlt_bool_false_iff.
    rewrite L, (NI q Hq). reflexivity.
  - intros q Hq. unfold validateTimestamp. cbn [isNaN num_gt num_lt of_Z].
    rewrite (NI q Hq).
    destruct (Qlt_bool (inject_Z TIME_MAX) q); [reflexivity|].
    destruct (Qlt_bool q (inject_Z 0)); reflexivity.
  - intros z Hz. apply validateTimestamp_of_Z. lia.
Qed.

(** ** encodeTime *)

(** [len] rounds of the loop put the [len] low Base32 digits of the
    timestamp in front of [str]. *)
Lemma encodeTime_loop_value (len : nat) :
  forall (t : Z) (str : string), 0 <= t ->
  exists s, encodeTime_loop len t str = s ++ str
            /\ String.length s = len
            /\ all_base32 s = true
            /\ base32_value s = t mod 32 ^ Z.of_nat len.
Proof.
  induction len as [|len IH]; intros t str Ht.
  - exists "". cbn. repeat split. now rewrite Z.mod_1_r.
  - cbn [encodeTime_loop]. change ENCODING_LEN with 32.
    rewrite Z.rem_mod_nonneg by lia.
    replace ((t - t mod 32) / 32) with (t / 32)
      by (rewrite (Z.div_mod t 32) at 2 by lia;
          replace (32 * (t / 32) + t mod 32 - t mod 32) with ((t / 32) * 32) by lia;
          now rewrite Z.div_mul by lia).
    pose proof (Z.mod_pos_bound t 32 ltac:(lia)) as Hm.
    destruct (indexOf_index (t mod 32) Hm) as (c & G & I & W).
    unfold charAt. rewrite G. cbn [append].
    destruct (IH (t / 32) (String c str)) as (s & E & L & A & V).
    { apply Z.div_pos; lia. }
    exists (s ++ String c ""). rewrite E, app_assoc. cbn [append].
    split; [reflexivity|]. rewrite length_app, L. cbn [String.length].
    split; [lia|]. rewrite all_base32_app, A. cbn [all_base32]. rewrite W.
    split; [reflexivity|].
    rewrite base32_value_app, V. cbn [base32_value String.length]. rewrite I.
    change (ENCODING_LEN ^ Z.of_nat 0) with 1. change (32 ^ Z.of_nat 1) with 32.
    rewrite pow32_succ, Z.rem_mul_r by (pose proof (pow32_pos len); lia). lia.
Qed.

Lemma TIME_MAX_digits : TIME_MAX < 32 ^ Z.of_nat TIME_LEN.
Proof. reflexivity. Qed.

(** [encodeTime] on a validated number: ten digits that denote it. *)
Lemma encodeTime_valid (t : number) :
  validateTimestamp t = Ok tt ->
  exists s, encodeTime t TIME_LEN = Ok s
            /\ String.length s = TIME_LEN
            /\ all_base32 s = true
            /\ base32_value s = to_Z t.
Proof.
  intros Hv. pose proof Hv as Hv'.
  apply validateTimestamp_Ok in Hv' as (q & _ & _ & B).
  unfold encodeTime. rewrite Hv. cbn [bind].
  destruct (encodeTime_loop_value TIME_LEN (to_Z t) "") as (s & E & L & A & V); [lia|].
  exists s. rewrite E, app_empty_r. repeat split; try assumption.
  rewrite V. apply Z.mod_small. pose proof TIME_MAX_digits. lia.
Qed.

(** ** decodeTime *)

Lemma reduce_from_app {A B : Type} (f : B -> A -> Z -> result B)
    (l1 l2 : list A) (index : Z) (carry : B) :
  reduce_from f (l1 ++ l2)%list index carry
  = (carry' <- reduce_from f l1 index carry ;;
     reduce_from f l2 (index + Z.of_nat (List.length l1)) carry').
Proof.
  revert index carry. induction l1 as [|x l1 IH]; intros index carry.
  - cbn. now rewrite Z.add_0_r.
  - cbn [reduce_from app List.length].
    destruct (f carry x index) as [c|e]; cbn [bind]; [|reflexivity].
    rewrite IH. now replace (index + 1 + Z.of_nat (List.length l1))
      with (index + Z.of_nat (S (List.length l1))) by lia.
Qed.

Lemma length_list_ascii (s : string) :
  List.length (list_ascii_of_string s) = String.length s.
Proof. induction s as [|c s IH]; cbn; [reflexivity | now rewrite IH]. Qed.

Lemma decode_digits_cons (c : ascii) (s : string) :
  decode_digits (String c s)
  = (carry <- decode_digits s ;;
     if ENCODING_indexOf (Some c) =? -1 then Err (ErrInvalidCharacter c)
     else Ok (carry + ENCODING_indexOf (Some c) * ENCODING_LEN ^ Z.of_nat (String.length s))).
Proof.
  unfold decode_digits, reduce. cbn [list_ascii_of_string rev].
  rewrite reduce_from_app. rewrite length_rev, length_list_ascii.
  destruct (reduce_from _ (rev (list_ascii_of_string s)) 0 0) as [v|e];
    cbn [bind reduce_from]; [|reflexivity].
  cbn [Z.add]. destruct (_ =? -1); reflexivity.
Qed.

(** The decoder returns the number the digits denote, or names a
    character outside the alphabet. *)
Lemma decode_digits_value (s : string) :
  if all_base32 s then decode_digits s = Ok (base32_value s)
  else exists c, is_base32 c = false /\ decode_digits s = Err (ErrInvalidCharacter c).
Proof.
  induction s as [|c s IH]; [reflexivity|].
  rewrite decode_digits_cons. cbn [all_base32 base32_value].
  unfold is_base32 at 1.
  destruct (all_base32 s).
  - rewrite IH. cbn [bind].
    destruct (ENCODING_indexOf (Some c) =? -1) eqn:E; cbn [negb andb].
    + exists c. unfold is_base32. now rewrite E.
    + f_equal. lia.
  - destruct IH as (d & Hd & ->). rewrite andb_false_r. now exists d.
Qed.

Lemma decodeTime_unfold (id : string) :
  decodeTime id
  = if negb (String.length id =? 26)%nat then Err ErrMalformed
    else time <- decode_digits (substring 0 10 id) ;;
         if time >? TIME_MAX then Err ErrTimestampTooLarge else Ok time.
Proof. reflexivity. Qed.

Lemma decodeTime_app (time random : string) :
  String.length time = TIME_LEN -> String.length random = RANDOM_LEN ->
  decodeTime (time ++ random)
  = (t <- decode_digits time ;;
     if t >? TIME_MAX then Err ErrTimestampTooLarge else Ok t).
Proof.
  intros Ht Hr. rewrite decodeTime_unfold, length_app, Ht, Hr.
  change (negb (TIME_LEN + RANDOM_LEN =? 26)%nat) with false. cbn match.
  change 10%nat with TIME_LEN. rewrite <- Ht, substring_app_length. reflexivity.
Qed.

(** The specification's most-significant-first accumulation computes the
    same number, and fails on the same strings. *)
Lemma decode_integer_from_value (s : string) :
  forall sum,
  if all_base32 s
  then decode_integer_from sum s
       = Ok (sum * 32 ^ Z.of_nat (String.length s) + base32_value s)
  else exists c, is_base32 c = false
                 /\ decode_integer_from sum s = Err (ErrInvalidCharacter c).
Proof.
  induction s as [|c s IH]; intros sum.
  - cbn. f_equal. lia.
  - cbn [all_base32 decode_integer_from base32_value String.length].
    destruct (is_base32 c) eqn:W; cbn [andb].
    + specialize (IH (sum * 32 + ENCODING_indexOf (Some c))).
      destruct (all_base32 s); [|exact IH].
      rewrite IH, pow32_succ. change ENCODING_LEN with 32. f_equal. ring.
    + now exists c.
Qed.

Lemma decode_digits_decode_integer (s : string) :
  if all_base32 s then decode_digits s = decode_integer s
  else fails_with (decode_digits s) DecodeError
       /\ fails_with (decode_integer s) DecodeError.
Proof.
  pose proof (decode_digits_value s) as D.
  pose proof (decode_integer_from_value s 0) as I. unfold decode_integer.
  destruct (all_base32 s).
  - rewrite D, I. reflexivity.
  - destruct D as (c & _ & ->). destruct I as (d & _ & ->).
    split; eexists; split; reflexivity.
Qed.

(** C4. For every integer [t] of [[0, 2^48 - 1]], [encodeTime(t, 10)]
    returns ten alphabet characters, and decoding them returns [t]:
    [decodeTime] returns [t] on the ten characters followed by any sixteen
    characters, and so do the fold it runs on the first ten characters,
    taken alone, and the most-significant-first accumulation of the
    specification. *)
Theorem decode_encodeTime (t : Z) :
  0 <= t <= TIME_MAX ->
  exists s, encodeTime (of_Z t) TIME_LEN = Ok s
            /\ String.length s = TIME_LEN
            /\ all_base32 s = true
            /\ (forall r, String.length r = RANDOM_LEN -> decodeTime (s ++ r) = Ok t)
            /\ decode_digits s = Ok t
            /\ decode_integer s = Ok t.
Proof.
  intros Ht.
  destruct (encodeTime_valid (of_Z t) (validateTimestamp_of_Z t Ht))
    as (s & E & L & A & V).
  rewrite to_Z_of_Z in V.
  pose proof (decode_digits_value s) as D. rewrite A, V in D.
  exists s. repeat split; try assumption.
  - intros r Lr. rewrite decodeTime_app by assumption. rewrite D. cbn [bind].
    destruct (Z.gtb_spec t TIME_MAX); [lia | reflexivity].
  - pose proof (decode_integer_from_value s 0) as I. rewrite A in I.
    unfold decode_integer. rewrite I, V. reflexivity.
Qed.

(** C7. [decodeTime] fails with "Malformed ULID" (FormatError) when the
    length is not 26; otherwise with "Invalid character" (DecodeError) when
    one of the first ten characters is outside the alphabet; otherwise with
    "timestamp too large" (RangeError) when the number the ten characters
    denote exceeds [2^48 - 1]; otherwise it returns that number.  The two
    identifiers of the upstream README decode to 1469918176385 and
    281474976710655. *)
Theorem decodeTime_cases (id : string) :
  (String.length id <> 26%nat ->
     decodeTime id = Err ErrMalformed /\ error_kind ErrMalformed = FormatError)
  /\ (String.length id = 26%nat -> all_base32 (substring 0 10 id) = false ->
      fails_with (decodeTime id) DecodeError)
  /\ (String.length id = 26%nat -> all_base32 (substring 0 10 id) = true ->
      TIME_MAX < base32_value (substring 0 10 id) ->
      decodeTime id = Err ErrTimestampTooLarge
      /\ error_kind ErrTimestampTooLarge = RangeError)
  /\ (String.length id = 26%nat -> all_base32 (substring 0 10 id) = true ->
      base32_value (substring 0 10 id) <= TIME_MAX ->
      decodeTime id = Ok (base32_value (substring 0 10 id)))
  /\ decodeTime "01ARYZ6S41TSV4RRFFQ69G5FAV" = Ok 1469918176385
  /\ decodeTime "7ZZZZZZZZZZZZZZZZZZZZZZZZZ" = Ok 281474976710655.
Proof.
  rewrite decodeTime_unfold.
  pose proof (decode_digits_value (substring 0 10 id)) as D.
  split; [|split; [|split; [|split; [|split]]]]; try reflexivity.
  - intros L. split; [|reflexivity].
    destruct (Nat.eqb_spec (String.length id) 26); [contradiction | reflexivity].
  - intros L A. rewrite L, A in *. cbn [Nat.eqb negb].
    destruct D as (c & _ & ->). now exists (ErrInvalidCharacter c).
  - intros L A B. rewrite L, A in *. cbn [Nat.eqb negb]. rewrite D. cbn [bind].
    split; [|reflexivity].
    destruct (Z.gtb_spec (base32_value (substring 0 10 id)) TIME_MAX); [reflexivity | lia].
  - intros L A B. rewrite L, A in *. cbn [Nat.eqb negb]. rewrite D. cbn [bind].
    destruct (Z.gtb_spec (base32_value (substring 0 10 id)) TIME_MAX); [lia | reflexivity].
Qed.

(** C10. On a 26-character identifier [decodeTime] reads the first ten
    characters only: when they are alphabet characters denoting a number
    of at most [2^48 - 1] it returns that number whatever the last sixteen
    characters are, and replacing the last sixteen characters changes
    neither the value returned nor the error raised. *)
Theorem decodeTime_ignores_random (time random : string) :
  String.length time = TIME_LEN -> String.length random = RANDOM_LEN ->
  (all_base32 time = true -> base32_value time <= TIME_MAX ->
   decodeTime (time ++ random) = Ok (base32_value time))
  /\ (forall random', String.length random' = RANDOM_LEN ->
      decodeTime (time ++ random') = decodeTime (time ++ random)).
Proof.
  intros Ht Hr. split.
  - intros A B. rewrite decodeTime_app by assumption.
    pose proof (decode_digits_value time) as D. rewrite A in D.
    rewrite D. cbn [bind].
    destruct (Z.gtb_spec (base32_value time) TIME_MAX); [lia | reflexivity].
  - intros random' Hr'. now rewrite !decodeTime_app.
Qed.

(** ** The random field *)

(** Whatever the byte, [randomChar] returns one alphabet character: byte
    255 gives index 32, which the source clamps to 31. *)
Lemma randomChar_byte (b : byte) :
  exists c,
    charAt ENCODING
      (let rand := Qfloor ((Z.of_N (Byte.to_N b) # 255) * inject_Z ENCODING_LEN) in
       if rand =? ENCODING_LEN then ENCODING_LEN - 1 else rand)
    = String c ""
    /\ is_base32 c = true.
Proof. destruct b; vm_compute; eexists; split; reflexivity. Qed.

Lemma randomChar_base32 (w : world) :
  exists c, randomChar w = (String c "", advance w) /\ is_base32 c = true.
Proof.
  unfold randomChar, webCryptoPRNG, getRandomValues.
  destruct (randomChar_byte (entropy w (drawn w))) as (c & E & W).
  exists c. split; [|exact W]. cbv zeta in E. now rewrite E.
Qed.

Lemma encodeRandom_loop_base32 (len : nat) :
  forall (str : string) (w : world),
  exists s w', encodeRandom_loop len str w = (s ++ str, w')
               /\ String.length s = len /\ all_base32 s = true.
Proof.
  induction len as [|len IH]; intros str w.
  - exists "", w. repeat split.
  - cbn [encodeRandom_loop].
    destruct (randomChar_base32 w) as (c & -> & W).
    destruct (IH (String c "" ++ str) (advance w)) as (s & w' & E & L & A).
    exists (s ++ String c ""), w'. rewrite E, app_assoc.
    split; [reflexivity|]. rewrite length_app, L. cbn [String.length].
    split; [lia|]. rewrite all_base32_app, A. cbn [all_base32]. now rewrite W.
Qed.

Lemma encodeRandom_base32 (len : nat) (w : world) :
  exists s w', encodeRandom len w = (s, w')
               /\ String.length s = len /\ all_base32 s = true.
Proof.
  destruct (encodeRandom_loop_base32 len "" w) as (s & w' & E & L & A).
  exists s, w'. unfold encodeRandom. rewrite E, app_empty_r. auto.
Qed.

(** ** The monotonic closure *)

Lemma ulid_shaped_app (time random : string) :
  String.length time = TIME_LEN -> all_base32 time = true ->
  String.length random = RANDOM_LEN -> all_base32 random = true ->
  ulid_shaped (time ++ random).
Proof.
  intros L1 A1 L2 A2. split.
  - now rewrite length_app, L1, L2.
  - now rewrite all_base32_app, A1, A2.
Qed.

Lemma consistent_fresh : consistent {| lastTime := of_Z 0; lastRandom := None |}.
Proof. split; [reflexivity | exact I]. Qed.

(** One call of the monotonic closure from a consistent state. *)
Lemma monotonic_call_step (vars : closure) (w : world) (c : call) :
  consistent vars ->
  forall r vars' w', monotonic_call vars w c = (r, vars', w') ->
  consistent vars'
  /\ match r with
     | Err _ => vars' = vars
     | Ok id =>
         ulid_shaped id
         /\ lastRandom vars' <> None
         /\ base32_value id = last_value vars'
         /\ last_value vars < base32_value id
     end.
Proof.
  intros [Hlast Hrand] r vars' w'. unfold monotonic_call.
  destruct (validateTimestamp (timestampOrNow c)) as [[]|e] eqn:Hv.
  2:{ intros H. injection H as <- <- <-. split; [split; assumption | reflexivity]. }
  rewrite (num_gt_valid _ _ Hv Hlast).
  destruct (encodeTime_valid _ Hv) as (time & Et & Lt & At & Vt).
  destruct (encodeTime_valid _ Hlast) as (time0 & Et0 & Lt0 & At0 & Vt0).
  destruct (Z.ltb_spec (to_Z (lastTime vars)) (to_Z (timestampOrNow c))) as [Hgt|Hle].
  - destruct (encodeRandom_base32 RANDOM_LEN w) as (random & w1 & -> & Lr & Ar).
    rewrite Et. cbn [bind]. intros H. injection H as <- <- <-.
    split; [split; [exact Hv | cbn; auto]|].
    split; [now apply ulid_shaped_app|].
    split; [discriminate|].
    unfold last_value at 1. cbn [lastRandom lastTime].
    rewrite base32_value_app, Lr, Vt. split; [reflexivity|].
    pose proof (base32_value_bound random Ar) as Br. rewrite Lr in Br.
    unfold last_value. destruct (lastRandom vars) as [random0|].
    + destruct Hrand as [L0 A0].
      pose proof (base32_value_bound random0 A0) as B0. rewrite L0 in B0.
      pose proof (pow32_pos RANDOM_LEN). nia.
    + apply validateTimestamp_Ok in Hv as (_ & _ & _ & B).
      pose proof (pow32_pos RANDOM_LEN). nia.
  - destruct (lastRandom vars) as [random0|] eqn:E0; cbn [incrementBase32_var].
    2:{ intros H. injection H as <- <- <-.
        split; [split; [assumption | now rewrite E0] | reflexivity]. }
    destruct Hrand as [L0 A0].
    destruct (incrementBase32 random0) as [random|e] eqn:Ei.
    2:{ intros H. injection H as <- <- <-.
        split; [split; [assumption | now rewrite E0] | reflexivity]. }
    assert (Hne : random0 <> js_repeat "Z" (String.length random0)).
    { intros E. rewrite L0 in E. rewrite E in Ei. discriminate Ei. }
    destruct (incrementBase32_value random0) as (random' & Ei' & Lr & Ar & Vr);
      [lia | assumption | assumption |].
    rewrite Ei in Ei'. injection Ei' as <-.
    rewrite Et0. cbn [bind]. intros H. injection H as <- <- <-.
    rewrite L0 in Lr.
    split; [split; [exact Hlast | cbn; auto]|].
    split; [now apply ulid_shaped_app|].
    split; [discriminate|].
    unfold last_value. cbn [lastRandom lastTime]. rewrite E0.
    rewrite base32_value_app, Lr, Vt0, Vr. split; [reflexivity | lia].
Qed.

Lemma generate_monotonic (vars : closure) (w : world) (c : call) :
  exists r vars' w', monotonic_call vars w c = (r, vars', w')
                     /\ generate (Monotonic vars) w c = (r, Monotonic vars', w').
Proof.
  cbn [generate]. destruct (monotonic_call vars w c) as [[r vars'] w'].
  now exists r, vars', w'.
Qed.

(** Along a run of the monotonic closure every emitted identifier is
    shaped as a ULID and exceeds, as a number, whatever was emitted before
    it: before the run, and earlier in the run. *)
Lemma run_monotonic (calls : list call) :
  forall (vars : closure) (w : world), consistent vars ->
  exists rs vars' w', run (Monotonic vars) w calls = (rs, Monotonic vars', w')
    /\ consistent vars'
    /\ (lastRandom vars <> None \/ emitted rs <> [] -> lastRandom vars' <> None)
    /\ Forall (fun id => ulid_shaped id /\ last_value vars < base32_value id)
         (emitted rs)
    /\ StronglySorted lex_lt (emitted rs).
Proof.
  induction calls as [|c calls IH]; intros vars w Hc.
  - exists [], vars, w. cbn [run emitted].
    split; [reflexivity|]. split; [exact Hc|].
    split; [intros [H|H]; [exact H | contradiction]|].
    split; constructor.
  - destruct (generate_monotonic vars w c) as (r & vars1 & w1 & Hm & Hg).
    destruct (monotonic_call_step vars w c Hc _ _ _ Hm) as [Hc1 Hr].
    destruct (IH vars1 w1 Hc1) as (rs & vars2 & w2 & Hrun & Hc2 & Hrnd & Hall & Hsorted).
    exists (r :: rs), vars2, w2. cbn [run]. rewrite Hg, Hrun.
    split; [reflexivity|]. split; [exact Hc2|].
    destruct r as [id|e].
    + destruct Hr as (Hshape & Hsome & Hval & Hlt). cbn [emitted].
      split; [intros _; apply Hrnd; now left|].
      assert (Hrest : Forall (fun id' => ulid_shaped id'
                        /\ base32_value id < base32_value id') (emitted rs)).
      { rewrite Hval. exact Hall. }
      split.
      * constructor; [split; assumption|].
        eapply Forall_impl; [|exact Hrest]. cbn. intros id' [S' L']. split; [exact S' | lia].
      * constructor; [exact Hsorted|].
        eapply Forall_impl; [|exact Hrest]. cbn. intros id' [[L' A'] V'].
        destruct Hshape as [L A].
        apply lex_lt_base32_value; [congruence | assumption | assumption | exact V'].
    + subst vars1. cbn [emitted]. auto.
Qed.

Lemma ulidFactory_monotonic (monotonic : option bool) :
  monotonic <> Some false ->
  ulidFactory monotonic = Monotonic {| lastTime := of_Z 0; lastRandom := None |}.
Proof. destruct monotonic as [[|]|]; [reflexivity | contradiction | reflexivity]. Qed.

Lemma all_ok_emitted (rs : list (result string)) :
  Forall (fun r => is_ok r = true) rs -> rs = map Ok (emitted rs).
Proof.
  induction 1 as [|r rs Hr _ IH]; [reflexivity|].
  destruct r as [id|e]; [|discriminate Hr]. cbn [emitted map]. now rewrite <- IH.
Qed.

(** C1. Take any finite sequence of calls on one monotonic generator,
    with any arguments, clock readings and random bytes.  When every
    resolved timestamp is valid and no call throws, every call emitted a
    string and the emitted strings are strictly increasing in
    lexicographic order, each one above all the earlier ones. *)
Theorem monotonic_strictly_increasing (monotonic : option bool) (w : world)
    (calls : list call) (rs : list (result string)) (f' : ULIDFactory) (w' : world) :
  monotonic <> Some false ->
  run (ulidFactory monotonic) w calls = (rs, f', w') ->
  Forall (fun c => validateTimestamp (timestampOrNow c) = Ok tt) calls ->
  Forall (fun r => is_ok r = true) rs ->
  rs = map Ok (emitted rs) /\ StronglySorted lex_lt (emitted rs).
Proof.
  intros Hm Hrun _ Hok. rewrite (ulidFactory_monotonic _ Hm) in Hrun.
  destruct (run_monotonic calls _ w consistent_fresh)
    as (rs0 & vars' & w0 & Hrun0 & _ & _ & _ & Hsorted).
  rewrite Hrun in Hrun0. injection Hrun0 as <- _ _.
  split; [now apply all_ok_emitted | exact Hsorted].
Qed.

(** The strings a monotonic generator emits are strictly increasing even
    when calls in between throw: a throwing call leaves the captured
    variables as they were. *)
Lemma emitted_sorted_despite_errors (w : world) (calls : list call) :
  StronglySorted lex_lt (emitted (fst (fst (run (ulidFactory None) w calls)))).
Proof.
  destruct (run_monotonic calls _ w consistent_fresh)
    as (rs & vars' & w' & Hrun & _ & _ & _ & Hsorted).
  cbn [ulidFactory]. now rewrite Hrun.
Qed.

Lemma after_success_consistent (vars : closure) :
  after_success vars -> consistent vars /\ lastRandom vars <> None.
Proof.
  intros (w & calls & rs & w' & Hrun & Hne).
  destruct (run_monotonic calls _ w consistent_fresh)
    as (rs0 & vars0 & w0 & Hrun0 & Hc & Hsome & _ & _).
  cbn [ulidFactory] in Hrun. rewrite Hrun in Hrun0.
  injection Hrun0 as <- <- <-. split; [exact Hc | apply Hsome; now right].
Qed.

(** The branch taken when the resolved timestamp does not exceed
    [lastTime]. *)
Lemma monotonic_call_hold (vars : closure) (w : world) (c : call) (random : string) :
  validateTimestamp (lastTime vars) = Ok tt ->
  lastRandom vars = Some random ->
  validateTimestamp (timestampOrNow c) = Ok tt ->
  to_Z (timestampOrNow c) <= to_Z (lastTime vars) ->
  monotonic_call vars w c
  = match incrementBase32 random with
    | Ok random' =>
        (time <- encodeTime (lastTime vars) TIME_LEN ;; Ok (time ++ random'),
         {| lastTime := lastTime vars; lastRandom := Some random' |}, w)
    | Err e => (Err e, vars, w)
    end.
Proof.
  intros Hlast Hrand Hv Hle. unfold monotonic_call.
  rewrite Hv, (num_gt_valid _ _ Hv Hlast).
  destruct (Z.ltb_spec (to_Z (lastTime vars)) (to_Z (timestampOrNow c))); [lia|].
  rewrite Hrand. reflexivity.
Qed.

Lemma timestampOrNow_explicit (t now : Z) :
  t <> 0 -> timestampOrNow (explicit t now) = of_Z t.
Proof.
  intros Ht. unfold timestampOrNow, explicit. cbn [timestamp num_truthy of_Z].
  destruct (Qeq_bool (inject_Z t) 0) eqn:E; [|reflexivity].
  apply Qeq_bool_iff in E. change 0%Q with (inject_Z 0) in E.
  apply (proj1 (inject_Z_injective t 0)) in E. contradiction.
Qed.

Lemma generate_hold_explicit (T t now : Z) (random random' time : string) (w : world) :
  0 < t <= T -> T <= TIME_MAX ->
  incrementBase32 random = Ok random' ->
  encodeTime (of_Z T) TIME_LEN = Ok time ->
  generate (Monotonic {| lastTime := of_Z T; lastRandom := Some random |}) w
    (explicit t now)
  = (Ok (time ++ random'),
     Monotonic {| lastTime := of_Z T; lastRandom := Some random' |}, w).
Proof.
  intros Ht HT Hi He. cbn [generate].
  rewrite (monotonic_call_hold _ w (explicit t now) random).
  - cbn [lastTime]. now rewrite Hi, He.
  - apply validateTimestamp_of_Z. lia.
  - reflexivity.
  - rewrite timestampOrNow_explicit by lia. apply validateTimestamp_of_Z. lia.
  - rewrite timestampOrNow_explicit by lia. cbn [lastTime]. rewrite !to_Z_of_Z. lia.
Qed.

(** C3. In a state reached after an identifier was emitted, a call whose
    resolved timestamp passed validation and does not exceed [lastTime]
    keeps [lastTime], and follows [incrementBase32(lastRandom)]: when that
    returns a string, the string becomes [lastRandom] and the call emits
    [encodeTime(lastTime, 10)] followed by it; when that throws, the call
    throws the same error and the state is as before.  With a random
    source of zero bytes, a call with timestamp 1469918176385 followed by
    three calls with timestamps of at most that value emits the four
    identifiers 01ARYZ6S41 0000000000000000 to 01ARYZ6S41 0000000000000003. *)
Theorem monotonic_holds_timestamp :
  (forall (vars : closure) (w : world) (c : call),
     after_success vars ->
     validateTimestamp (timestampOrNow c) = Ok tt ->
     to_Z (timestampOrNow c) <= to_Z (lastTime vars) ->
     exists random time,
       lastRandom vars = Some random
       /\ encodeTime (lastTime vars) TIME_LEN = Ok time
       /\ match incrementBase32 random with
          | Ok random' =>
              monotonic_call vars w c
              = (Ok (time ++ random'),
                 {| lastTime := lastTime vars; lastRandom := Some random' |}, w)
          | Err e => monotonic_call vars w c = (Err e, vars, w)
          end)
  /\ (forall t1 t2 t3 now0 now1 now2 now3 : Z,
        0 < t1 <= 1469918176385 -> 0 < t2 <= 1469918176385 ->
        0 < t3 <= 1469918176385 ->
        fst (fst (run (ulidFactory None) zero_bytes
                    [explicit 1469918176385 now0; explicit t1 now1;
                     explicit t2 now2; explicit t3 now3]))
        = [Ok "01ARYZ6S410000000000000000"; Ok "01ARYZ6S410000000000000001";
           Ok "01ARYZ6S410000000000000002"; Ok "01ARYZ6S410000000000000003"]).
Proof.
  split.
  - intros vars w c Hs Hv Hle.
    destruct (after_success_consistent vars Hs) as [[Hlast Hrand] Hsome].
    destruct (lastRandom vars) as [random|] eqn:E; [|contradiction].
    destruct (encodeTime_valid _ Hlast) as (time & Et & _).
    exists random, time. split; [reflexivity|]. split; [exact Et|].
    rewrite (monotonic_call_hold vars w c random Hlast E Hv Hle), Et.
    destruct (incrementBase32 random); reflexivity.
  - intros t1 t2 t3 now0 now1 now2 now3 H1 H2 H3.
    assert (H0 : generate (ulidFactory None) zero_bytes (explicit 1469918176385 now0)
                 = (Ok "01ARYZ6S410000000000000000",
                    Monotonic {| lastTime := of_Z 1469918176385;
                                 lastRandom := Some "0000000000000000" |},
                    {| entropy := entropy zero_bytes; drawn := 16 |}))
      by (vm_compute; reflexivity).
    cbn [run]. rewrite H0.
    rewrite (generate_hold_explicit 1469918176385 t1 now1 "0000000000000000"
               "0000000000000001" "01ARYZ6S41");
      [|assumption | vm_compute; discriminate | vm_compute; reflexivity
       | vm_compute; reflexivity].
    rewrite (generate_hold_explicit 1469918176385 t2 now2 "0000000000000001"
               "0000000000000002" "01ARYZ6S41");
      [|assumption | vm_compute; discriminate | vm_compute; reflexivity
       | vm_compute; reflexivity].
    rewrite (generate_hold_explicit 1469918176385 t3 now3 "0000000000000002"
               "0000000000000003" "01ARYZ6S41");
      [|assumption | vm_compute; discriminate | vm_compute; reflexivity
       | vm_compute; reflexivity].
    reflexivity.
Qed.

(** ** The stateless function *)

Lemma nonmonotonic_call_shaped (w w' : world) (c : call) (id : string) :
  nonmonotonic_call w c = (Ok id, w') -> ulid_shaped id.
Proof.
  unfold nonmonotonic_call.
  destruct (validateTimestamp (timestampOrNow c)) as [[]|e] eqn:Hv; [|discriminate].
  destruct (encodeTime_valid _ Hv) as (time & -> & Lt & At & _).
  destruct (encodeRandom_base32 RANDOM_LEN w) as (random & w1 & -> & Lr & Ar).
  intros H. injection H as <- _. now apply ulid_shaped_app.
Qed.

Lemma run_nonmonotonic (calls : list call) :
  forall (w : world) rs f w', run NonMonotonic w calls = (rs, f, w') -> f = NonMonotonic.
Proof.
  induction calls as [|c calls IH]; intros w rs f w' H.
  - injection H as _ <- _. reflexivity.
  - cbn [run generate] in H. destruct (nonmonotonic_call w c) as [r w1].
    destruct (run NonMonotonic w1 calls) as [[rs1 f1] w2] eqn:E.
    injection H as _ <- _. exact (IH _ _ _ _ E).
Qed.

(** C9. Whatever calls a generated function has served before, of
    either variant, a call that returns an identifier returns 26
    characters, each of them in the alphabet
    0123456789ABCDEFGHJKMNPQRSTVWXYZ. *)
Theorem generated_id_well_formed (monotonic : option bool) (w0 w1 w w' : world)
    (calls : list call) (rs : list (result string)) (f f' : ULIDFactory)
    (c : call) (id : string) :
  run (ulidFactory monotonic) w0 calls = (rs, f, w1) ->
  generate f w c = (Ok id, f', w') ->
  String.length id = 26%nat /\ all_base32 id = true.
Proof.
  intros Hrun Hgen.
  assert (Hcase : monotonic = Some false \/ monotonic <> Some false).
  { destruct monotonic as [[|]|]; [right | left | right]; congruence. }
  destruct Hcase as [-> | Hm].
  - cbn [ulidFactory] in Hrun. apply run_nonmonotonic in Hrun. subst f.
    cbn [generate] in Hgen. destruct (nonmonotonic_call w c) as [r w2] eqn:E.
    injection Hgen as -> _ _. exact (nonmonotonic_call_shaped _ _ _ _ E).
  - rewrite (ulidFactory_monotonic _ Hm) in Hrun.
    destruct (run_monotonic calls _ w0 consistent_fresh)
      as (rs0 & vars & w2 & Hrun0 & Hc & _).
    rewrite Hrun in Hrun0. injection Hrun0 as _ -> _.
    destruct (generate_monotonic vars w c) as (r & vars' & w3 & Hcall & Hg).
    rewrite Hgen in Hg. injection Hg as <- _ _.
    exact (proj1 (proj2 (monotonic_call_step vars w c Hc _ _ _ Hcall))).
Qed.

(** ** Explicit timestamps *)

(** A first call with an explicit timestamp of at least one millisecond:
    the identifier carries that timestamp, on either variant. *)
Lemma decodeTime_generate_positive (monotonic : option bool) (w : world) (t now : Z) :
  0 < t <= TIME_MAX ->
  exists id f w', generate (ulidFactory monotonic) w (explicit t now) = (Ok id, f, w')
                  /\ decodeTime id = Ok t.
Proof.
  intros Ht.
  assert (Hv : validateTimestamp (of_Z t) = Ok tt) by (apply validateTimestamp_of_Z; lia).
  destruct (encodeTime_valid _ Hv) as (time & Et & Lt & At & Vt).
  destruct (encodeRandom_base32 RANDOM_LEN w) as (random & w1 & Er & Lr & Ar).
  assert (Hd : decodeTime (time ++ random) = Ok t).
  { rewrite decodeTime_app by assumption.
    pose proof (decode_digits_value time) as D. rewrite At in D.
    rewrite D, Vt, to_Z_of_Z. cbn [bind].
    destruct (Z.gtb_spec t TIME_MAX); [lia | reflexivity]. }
  assert (Hcase : monotonic = Some false \/ monotonic <> Some false).
  { destruct monotonic as [[|]|]; [right | left | right]; congruence. }
  destruct Hcase as [-> | Hm].
  - exists (time ++ random), NonMonotonic, w1. split; [|exact Hd].
    cbn [ulidFactory generate]. unfold nonmonotonic_call.
    rewrite timestampOrNow_explicit by lia. now rewrite Hv, Et, Er.
  - exists (time ++ random),
      (Monotonic {| lastTime := of_Z t; lastRandom := Some random |}), w1.
    split; [|exact Hd].
    rewrite (ulidFactory_monotonic _ Hm). cbn [generate]. unfold monotonic_call.
    rewrite timestampOrNow_explicit by lia. rewrite Hv. cbn [lastTime].
    rewrite (num_gt_valid _ _ Hv (validateTimestamp_of_Z 0 ltac:(unfold TIME_MAX; lia))).
    rewrite !to_Z_of_Z. destruct (Z.ltb_spec 0 t); [|lia].
    now rewrite Er, Et.
Qed.

(** C2, at the timestamp it singles out.  [validateTimestamp] accepts
    [0], yet [timestamp || Date.now()] takes an explicit [0] for an absent
    argument: with the clock at 1469918176385 a fresh generator of either
    variant, called with timestamp [0], emits an identifier that decodes to
    the clock reading; and with the clock at [0] the monotonic one throws,
    reading the length of [lastRandom] before it was ever assigned. *)
Theorem generate_explicit_zero :
  validateTimestamp (of_Z 0) = Ok tt
  /\ fst (fst (generate (ulidFactory (Some true)) zero_bytes (explicit 0 1469918176385)))
     = Ok "01ARYZ6S410000000000000000"
  /\ fst (fst (generate (ulidFactory (Some false)) zero_bytes (explicit 0 1469918176385)))
     = Ok "01ARYZ6S410000000000000000"
  /\ decodeTime "01ARYZ6S410000000000000000" = Ok 1469918176385
  /\ fst (fst (generate (ulidFactory (Some true)) zero_bytes (explicit 0 0)))
     = Err ErrUndefinedLength.
Proof. repeat split; vm_compute; reflexivity. Qed.

(** ** incrementBase32: order and errors *)

(** C5. On two well-formed strings of one width (at most 16), neither of
    them the maximum of that width, [incrementBase32] returns two strings
    and keeps the strict order, lexicographic and numeric alike, and
    equal results come from equal arguments only; on sixteen ['Z'] it
    fails with "Cannot increment Base32 maximum value" (OverflowError).
    [0000000000000009] is sent to [000000000000000A] and
    [000000000000000Z] to [0000000000000010]. *)
Theorem incrementBase32_injective_monotone :
  (forall s t : string,
     (String.length s <= RANDOM_LEN)%nat -> String.length s = String.length t ->
     all_base32 s = true -> all_base32 t = true ->
     s <> js_repeat "Z" (String.length s) ->
     t <> js_repeat "Z" (String.length t) ->
     exists s' t',
       incrementBase32 s = Ok s' /\ incrementBase32 t = Ok t'
       /\ (lex_lt s t -> lex_lt s' t')
       /\ (base32_value s < base32_value t -> base32_value s' < base32_value t')
       /\ (s' = t' -> s = t))
  /\ incrementBase32 (js_repeat "Z" 16) = Err ErrMaximum
  /\ error_kind ErrMaximum = OverflowError
  /\ incrementBase32 "0000000000000009" = Ok "000000000000000A"
  /\ incrementBase32 "000000000000000Z" = Ok "0000000000000010".
Proof.
  split; [|repeat split; vm_compute; reflexivity].
  intros s t Ls Lst As At Ns Nt.
  destruct (incrementBase32_value s Ls As Ns) as (s' & Es & Ls' & As' & Vs).
  destruct (incrementBase32_value t ltac:(lia) At Nt) as (t' & Et & Lt' & At' & Vt).
  exists s', t'. split; [exact Es|]. split; [exact Et|].
  assert (Lst' : String.length s' = String.length t') by congruence.
  split; [|split].
  - intros H. apply (lex_lt_base32_value s t Lst As At) in H.
    apply (lex_lt_base32_value s' t' Lst' As' At'). lia.
  - lia.
  - intros E. apply base32_value_inj; try assumption.
    assert (base32_value s' = base32_value t') by now rewrite E. lia.
Qed.

(** C6 as the source has it.  [incrementBase32] fails with the "cannot
    be longer than 16 characters" error (LengthError) on every string
    longer than 16, and with the "maximum value" error (OverflowError) on
    sixteen ['Z'].  On a string of at most 16 characters whose rightmost
    character other than ['Z'] is [c], it fails with "Incorrectly encoded
    string" (DecodeError) when [c] is outside the alphabet, and otherwise
    succeeds: [c] becomes the next alphabet symbol, each ['Z'] after it
    becomes ['0'], and the characters before [c] are kept as they are,
    unexamined. *)
Theorem incrementBase32_outcomes :
  (forall s, (RANDOM_LEN < String.length s)%nat ->
     incrementBase32 s = Err ErrTooLong)
  /\ incrementBase32 (js_repeat "Z" RANDOM_LEN) = Err ErrMaximum
  /\ (forall (p : string) (c : ascii) (k : nat),
        (String.length (p ++ String c (js_repeat "Z" k)) <= RANDOM_LEN)%nat ->
        c <> "Z"%char -> is_base32 c = false ->
        incrementBase32 (p ++ String c (js_repeat "Z" k)) = Err ErrIncorrectlyEncoded)
  /\ (forall (p : string) (c : ascii) (k : nat),
        (String.length (p ++ String c (js_repeat "Z" k)) <= RANDOM_LEN)%nat ->
        c <> "Z"%char -> is_base32 c = true ->
        exists c',
          js_index ENCODING (ENCODING_indexOf (Some c) + 1) = Some c'
          /\ incrementBase32 (p ++ String c (js_repeat "Z" k))
             = Ok (p ++ String c' (js_repeat "0" k)))
  /\ (error_kind ErrTooLong = LengthError
      /\ error_kind ErrMaximum = OverflowError
      /\ error_kind ErrIncorrectlyEncoded = DecodeError).
Proof.
  split; [|split; [|split; [|split]]].
  - intros s H. unfold incrementBase32.
    destruct (Nat.ltb_spec RANDOM_LEN (String.length s)); [reflexivity | lia].
  - reflexivity.
  - intros p c k Hlen Hc Hb. rewrite incrementBase32_rightmost by assumption.
    now rewrite Hb.
  - intros p c k Hlen Hc Hb. rewrite incrementBase32_rightmost by assumption.
    rewrite Hb. pose proof (indexOf_range c Hb) as Hr.
    assert (Hne : ENCODING_indexOf (Some c) <> ENCODING_LEN - 1)
      by (intros E; apply indexOf_last in E; contradiction).
    change (ENCODING_LEN - 1) with 31 in Hne.
    destruct (indexOf_index (ENCODING_indexOf (Some c) + 1)) as (c' & G & _); [lia|].
    exists c'. split; [exact G|]. rewrite G. reflexivity.
  - repeat split.
Qed.

(** C6 as the specification words it fails twice: ["!0"] holds a
    character outside the alphabet and is incremented to ["!1"] without
    complaint, and ["ZZ"], the maximum of width two, fails as a badly
    encoded string (DecodeError), not with OverflowError. *)
Lemma incrementBase32_outcomes_counterexample :
  (all_base32 "!0" = false
   /\ incrementBase32 "!0" = Ok "!1"
   /\ ~ fails_with (incrementBase32 "!0") DecodeError)
  /\ ("ZZ" = js_repeat "Z" 2
      /\ incrementBase32 "ZZ" = Err ErrIncorrectlyEncoded
      /\ ~ fails_with (incrementBase32 "ZZ") OverflowError).
Proof.
  split; [split; [|split] | split; [|split]]; try reflexivity.
  - intros (e & E & _).
    change (incrementBase32 "!0") with (@Ok string "!1") in E. discriminate E.
  - intros (e & E & K).
    change (incrementBase32 "ZZ") with (@Err string ErrIncorrectlyEncoded) in E.
    injection E as <-. discriminate K.
Qed.

(** ** The theorems at concrete inputs *)

Lemma monotonic_strictly_increasing_witness :
  StronglySorted lex_lt
    ["01ARYZ6S410000000000000000"; "01ARYZ6S410000000000000001";
     "01ARYZ6S410000000000000002"; "01ARYZ6S420000000000000000";
     "01ARYZ6S420000000000000001"].
Proof.
  eassert (E : run (ulidFactory None) zero_bytes
                 [explicit 1469918176385 0; explicit 1469918175385 0;
                  explicit 1469918176385 0; explicit 1469918176386 0;
                  explicit 5 0] = _)
    by (vm_compute; reflexivity).
  refine (proj2 (monotonic_strictly_increasing None zero_bytes _ _ _ _ _ E _ _)).
  - discriminate.
  - repeat constructor.
  - repeat constructor.
Defined.

Lemma monotonic_holds_timestamp_witness :
  monotonic_call
    {| lastTime := of_Z 1469918176385; lastRandom := Some "0000000000000000" |}
    zero_bytes (explicit 1469918175385 0)
  = (Ok "01ARYZ6S410000000000000001",
     {| lastTime := of_Z 1469918176385; lastRandom := Some "0000000000000001" |},
     zero_bytes).
Proof.
  assert (Hs : after_success
                 {| lastTime := of_Z 1469918176385;
                    lastRandom := Some "0000000000000000" |}).
  { exists zero_bytes, [explicit 1469918176385 0]. eexists. eexists.
    split; [vm_compute; reflexivity | discriminate]. }
  destruct (proj1 monotonic_holds_timestamp _ zero_bytes (explicit 1469918175385 0) Hs)
    as (random & time & Hr & Ht & H).
  - reflexivity.
  - vm_compute. discriminate.
  - cbn [lastRandom lastTime] in Hr, Ht. injection Hr as <-.
    change (encodeTime (of_Z 1469918176385) TIME_LEN) with (@Ok string "01ARYZ6S41") in Ht.
    injection Ht as <-. exact H.
Defined.

Lemma decode_encodeTime_witness :
  exists s, encodeTime (of_Z 1469918176385) TIME_LEN = Ok s
            /\ String.length s = TIME_LEN
            /\ all_base32 s = true
            /\ (forall r, String.length r = RANDOM_LEN ->
                decodeTime (s ++ r) = Ok 1469918176385)
            /\ decode_digits s = Ok 1469918176385
            /\ decode_integer s = Ok 1469918176385.
Proof. apply decode_encodeTime. unfold TIME_MAX. lia. Defined.

Lemma incrementBase32_injective_monotone_witness :
  exists s' t',
    incrementBase32 "0000000000000009" = Ok s'
    /\ incrementBase32 "000000000000000Z" = Ok t'
    /\ (lex_lt "0000000000000009" "000000000000000Z" -> lex_lt s' t')
    /\ (base32_value "0000000000000009" < base32_value "000000000000000Z" ->
        base32_value s' < base32_value t')
    /\ (s' = t' -> "0000000000000009" = "000000000000000Z").
Proof.
  apply (proj1 incrementBase32_injective_monotone).
  - unfold RANDOM_LEN. cbn. lia.
  - reflexivity.
  - reflexivity.
  - reflexivity.
  - vm_compute. discriminate.
  - vm_compute. discriminate.
Defined.

Lemma incrementBase32_outcomes_witness :
  incrementBase32 "00000000000000000" = Err ErrTooLong
  /\ incrementBase32 "0!ZZ" = Err ErrIncorrectlyEncoded
  /\ exists c', js_index ENCODING (ENCODING_indexOf (Some "9"%char) + 1) = Some c'
                /\ incrementBase32 "!9ZZ" = Ok ("!" ++ String c' "00").
Proof.
  destruct incrementBase32_outcomes as (Hlong & _ & Hbad & Hgood & _).
  split; [|split].
  - apply Hlong. unfold RANDOM_LEN. cbn. lia.
  - apply (Hbad "0" "!"%char 2%nat).
    + unfold RANDOM_LEN. cbn. lia.
    + discriminate.
    + reflexivity.
  - apply (Hgood "!" "9"%char 2%nat).
    + unfold RANDOM_LEN. cbn. lia.
    + discriminate.
    + reflexivity.
Defined.

Lemma decodeTime_cases_witness :
  decodeTime "FFFF" = Err ErrMalformed
  /\ fails_with (decodeTime "0000000U000000000000000000") DecodeError
  /\ decodeTime "80000000000000000000000000" = Err ErrTimestampTooLarge
  /\ decodeTime "01ARYZ6S41TSV4RRFFQ69G5FAV" = Ok 1469918176385.
Proof.
  split; [|split; [|split]].
  - apply (proj1 (decodeTime_cases "FFFF")). discriminate.
  - apply (proj1 (proj2 (decodeTime_cases "0000000U000000000000000000")));
      reflexivity.
  - apply (proj1 (proj2 (proj2 (decodeTime_cases "80000000000000000000000000"))));
      reflexivity.
  - apply (proj1 (proj2 (proj2 (proj2 (decodeTime_cases "01ARYZ6S41TSV4RRFFQ69G5FAV")))));
      [reflexivity | reflexivity | vm_compute; discriminate].
Defined.

Lemma validateTimestamp_classes_witness :
  validateTimestamp (Finite (281474976710656 # 1)) = Err ErrTooLarge
  /\ validateTimestamp (Finite (-1 # 1)) = Err ErrNegative
  /\ validateTimestamp (Finite (1001 # 10)) = Err ErrNotInteger
  /\ validateTimestamp (of_Z 1469918176385) = Ok tt.
Proof.
  destruct validateTimestamp_classes
    as (_ & _ & Hlarge & _ & Hneg & Hfrac & _ & Hok & _).
  split; [|split; [|split]].
  - apply Hlarge. vm_compute. reflexivity.
  - apply Hneg. vm_compute. reflexivity.
  - apply Hfrac.
    + vm_compute. discriminate.
    + vm_compute. discriminate.
    + intros (z & E). unfold Qeq, inject_Z in E. cbn [Qnum Qden] in E. lia.
  - apply Hok. unfold TIME_MAX. lia.
Defined.

Lemma generated_id_well_formed_witness :
  String.length "01ARYZ6S410000000000000001" = 26%nat
  /\ all_base32 "01ARYZ6S410000000000000001" = true.
Proof.
  pose (vars := {| lastTime := of_Z 1469918176385;
                   lastRandom := Some "0000000000000000" |}).
  pose (vars' := {| lastTime := of_Z 1469918176385;
                    lastRandom := Some "0000000000000001" |}).
  pose (w1 := {| entropy := entropy zero_bytes; drawn := 16 |}).
  assert (E : run (ulidFactory None) zero_bytes [explicit 1469918176385 0]
              = ([Ok "01ARYZ6S410000000000000000"], Monotonic vars, w1))
    by (vm_compute; reflexivity).
  assert (G : generate (Monotonic vars) zero_bytes (explicit 1469918175385 0)
              = (Ok "01ARYZ6S410000000000000001", Monotonic vars', zero_bytes))
    by (vm_compute; reflexivity).
  exact (generated_id_well_formed None zero_bytes w1 zero_bytes zero_bytes
           [explicit 1469918176385 0] [Ok "01ARYZ6S410000000000000000"]
           (Monotonic vars) (Monotonic vars') (explicit 1469918175385 0)
           "01ARYZ6S410000000000000001" E G).
Defined.

Lemma decodeTime_ignores_random_witness :
  decodeTime ("01ARYZ6S41" ++ "!!!!!!!! ilou !!") = Ok 1469918176385
  /\ decodeTime ("01ARYZ6S41" ++ "TSV4RRFFQ69G5FAV")
     = decodeTime ("01ARYZ6S41" ++ "!!!!!!!! ilou !!").
Proof.
  destruct (decodeTime_ignores_random "01ARYZ6S41" "!!!!!!!! ilou !!")
    as [Hvalue Hsame]; [reflexivity | reflexivity |].
  split.
  - apply Hvalue; [reflexivity | vm_compute; discriminate].
  - apply Hsame. reflexivity.
Defined.

(** * Further properties of the codec *)

Lemma pow32_mono (m n : nat) : (m <= n)%nat -> 32 ^ Z.of_nat m <= 32 ^ Z.of_nat n.
Proof. intros H. apply Z.pow_le_mono_r; lia. Qed.

(** X1. For a valid timestamp [t] and any width [len], [encodeTime(t, len)]
    returns exactly [len] alphabet characters denoting [t mod 32^len]: the
    high digits are dropped when [len] is too small, and from width ten on
    the string is [t] padded with ['0'] on the left. *)
Theorem encodeTime_any_width (t : Z) (len : nat) :
  0 <= t <= TIME_MAX ->
  exists s, encodeTime (of_Z t) len = Ok s
            /\ String.length s = len
            /\ all_base32 s = true
            /\ base32_value s = t mod 32 ^ Z.of_nat len
            /\ ((TIME_LEN <= len)%nat -> base32_value s = t).
Proof.
  intros Ht. unfold encodeTime.
  rewrite (validateTimestamp_of_Z t Ht), to_Z_of_Z. cbn [bind].
  destruct (encodeTime_loop_value len t "") as (s & E & L & A & V); [lia|].
  exists s. rewrite E, app_empty_r. repeat split; try assumption.
  intros Hlen. rewrite V. apply Z.mod_small.
  pose proof TIME_MAX_digits. pose proof (pow32_mono _ _ Hlen). lia.
Qed.

Lemma encodeTime_any_width_witness :
  exists s, encodeTime (of_Z 1470118279201) 8 = Ok s
            /\ String.length s = 8%nat
            /\ all_base32 s = true
            /\ base32_value s = 1470118279201 mod 32 ^ Z.of_nat 8
            /\ ((TIME_LEN <= 8)%nat -> base32_value s = 1470118279201).
Proof. apply encodeTime_any_width. split; vm_compute; discriminate. Defined.

(** X2. At width ten [encodeTime] turns the order of valid timestamps
    into the lexicographic order of strings, both ways, so distinct
    timestamps get distinct strings. *)
Theorem encodeTime_order (t1 t2 : Z) :
  0 <= t1 <= TIME_MAX -> 0 <= t2 <= TIME_MAX ->
  exists s1 s2, encodeTime (of_Z t1) TIME_LEN = Ok s1
                /\ encodeTime (of_Z t2) TIME_LEN = Ok s2
                /\ (t1 < t2 <-> lex_lt s1 s2)
                /\ (t1 = t2 <-> s1 = s2).
Proof.
  intros H1 H2.
  destruct (encodeTime_valid _ (validateTimestamp_of_Z t1 H1)) as (s1 & E1 & L1 & A1 & V1).
  destruct (encodeTime_valid _ (validateTimestamp_of_Z t2 H2)) as (s2 & E2 & L2 & A2 & V2).
  rewrite to_Z_of_Z in V1, V2.
  exists s1, s2. split; [exact E1|]. split; [exact E2|].
  assert (L : String.length s1 = String.length s2) by congruence.
  split.
  - rewrite (lex_lt_base32_value s1 s2 L A1 A2). lia.
  - split.
    + intros ->. rewrite E1 in E2. congruence.
    + intros E. subst s2. lia.
Qed.

Lemma encodeTime_order_witness :
  exists s1 s2, encodeTime (of_Z 1469918176385) TIME_LEN = Ok s1
                /\ encodeTime (of_Z 1469918176386) TIME_LEN = Ok s2
                /\ (1469918176385 < 1469918176386 <-> lex_lt s1 s2)
                /\ (1469918176385 = 1469918176386 <-> s1 = s2).
Proof. apply encodeTime_order; split; vm_compute; discriminate. Defined.

Lemma randomChar_byte_eighth (b : byte) :
  charAt ENCODING
    (let rand := Qfloor ((Z.of_N (Byte.to_N b) # 255) * inject_Z ENCODING_LEN) in
     if rand =? ENCODING_LEN then ENCODING_LEN - 1 else rand)
  = charAt ENCODING (byte_value b / 8).
Proof. destruct b; vm_compute; reflexivity. Qed.

Lemma byte_value_range (b : byte) : 0 <= byte_value b < 256.
Proof. destruct b; vm_compute; split; congruence. Qed.

Lemma randomChar_position (w : world) :
  randomChar w = (charAt ENCODING (byte_value (entropy w (drawn w)) / 8), advance w).
Proof.
  unfold randomChar, webCryptoPRNG, getRandomValues.
  pose proof (randomChar_byte_eighth (entropy w (drawn w))) as E.
  cbv zeta in E. now rewrite E.
Qed.

(** X3. [randomChar] draws one byte [b] and returns the alphabet
    character at position [b / 8] (byte 255, which the scaling sends to 32,
    is clamped back to the last symbol): every symbol is the image of
    exactly eight of the 256 byte values, and the result is never empty. *)
Theorem randomChar_eighth (w : world) :
  randomChar w = (charAt ENCODING (byte_value (entropy w (drawn w)) / 8), advance w)
  /\ (exists c, fst (randomChar w) = String c "" /\ is_base32 c = true)
  /\ (forall k, 0 <= k < 32 ->
      forall b, byte_value b / 8 = k <-> 8 * k <= byte_value b < 8 * k + 8).
Proof.
  split; [apply randomChar_position | split].
  - destruct (randomChar_base32 w) as (c & E & W). exists c. now rewrite E.
  - intros k Hk b. pose proof (byte_value_range b) as Hb.
    pose proof (Z.div_mod (byte_value b) 8 ltac:(lia)) as D.
    pose proof (Z.mod_pos_bound (byte_value b) 8 ltac:(lia)) as M.
    split; intros H; lia.
Qed.

Lemma randomChar_eighth_witness :
  randomChar zero_bytes = ("0", advance zero_bytes)
  /\ (byte_value xff / 8 = 31 <-> 8 * 31 <= byte_value xff < 8 * 31 + 8).
Proof.
  destruct (randomChar_eighth zero_bytes) as (E & _ & H).
  split; [exact E|]. apply H. lia.
Defined.

Lemma get_app_lt (p t : string) (j : nat) :
  (j < String.length p)%nat -> String.get j (p ++ t) = String.get j p.
Proof.
  revert j. induction p as [|d p IH]; intros j H; cbn in H; [lia|].
  destruct j as [|j]; cbn; [reflexivity | apply IH; lia].
Qed.

Lemma get_app_ge (p t : string) (j : nat) :
  String.get (String.length p + j) (p ++ t) = String.get j t.
Proof. induction p as [|d p IH]; cbn; [reflexivity | exact IH]. Qed.

Lemma advance_by_advance (n : nat) (w : world) :
  advance_by n (advance w) = advance_by (S n) w.
Proof. unfold advance_by, advance. cbn. f_equal. lia. Qed.

Lemma encodeRandom_loop_draws (len : nat) :
  forall (str : string) (w : world),
  exists s, encodeRandom_loop len str w = (s ++ str, advance_by len w)
            /\ String.length s = len
            /\ forall i, (i < len)%nat ->
               String.get (len - 1 - i) s
               = js_index ENCODING (byte_value (entropy w (drawn w + i)) / 8).
Proof.
  induction len as [|len IH]; intros str w.
  - exists "". destruct w. cbn. repeat split. intros i Hi. lia.
  - cbn [encodeRandom_loop].
    pose proof (randomChar_position w) as E.
    destruct (randomChar_base32 w) as (c & Ec & Wc).
    rewrite E in Ec. injection Ec as Ec. rewrite E, Ec.
    destruct (IH (String c "" ++ str) (advance w)) as (s & Es & Ls & Gs).
    exists (s ++ String c ""). rewrite Es, app_assoc, advance_by_advance.
    split; [reflexivity|]. rewrite length_app, Ls. cbn [String.length].
    split; [lia|]. intros i Hi. destruct i as [|i].
    + replace (S len - 1 - 0)%nat with (String.length s) by lia.
      rewrite get_app_length, Nat.add_0_r.
      unfold charAt in Ec.
      destruct (js_index ENCODING (byte_value (entropy w (drawn w)) / 8)) as [d|];
        [|discriminate Ec].
      now injection Ec as ->.
    + replace (S len - 1 - S i)%nat with (len - 1 - i)%nat by lia.
      rewrite get_app_lt by lia. rewrite (Gs i) by lia.
      cbn [advance entropy drawn].
      now replace (S (drawn w) + i)%nat with (drawn w + S i)%nat by lia.
Qed.

(** X4. [encodeRandom(len)] draws exactly [len] bytes and returns [len]
    alphabet characters; the string is built from the right, so the first
    byte drawn gives the last character: the [i]-th byte drawn selects the
    character at position [len - 1 - i].  For [len = 0] it returns the
    empty string and draws nothing. *)
Theorem encodeRandom_draws (len : nat) (w : world) :
  exists s, encodeRandom len w = (s, advance_by len w)
            /\ String.length s = len
            /\ all_base32 s = true
            /\ forall i, (i < len)%nat ->
               String.get (len - 1 - i) s
               = js_index ENCODING (byte_value (entropy w (drawn w + i)) / 8).
Proof.
  destruct (encodeRandom_loop_draws len "" w) as (s & E & L & G).
  destruct (encodeRandom_base32 len w) as (s' & w' & E' & _ & A).
  unfold encodeRandom in *. rewrite E, app_empty_r in *.
  injection E' as <- _. exists s. auto.
Qed.

Lemma get_some_lt (s : string) (j : nat) :
  (j < String.length s)%nat -> exists c, String.get j s = Some c.
Proof.
  revert j. induction s as [|d s IH]; intros j H; cbn in H; [lia|].
  destruct j as [|j]; cbn; [eauto | apply IH; lia].
Qed.

(** X5. [replaceCharAt] with a one-character replacement at a position
    inside the string keeps the length, puts the character at that
    position and leaves every other position as it was; at a position
    past the end it returns the string unchanged, whatever the
    replacement. *)
Theorem replaceCharAt_positions (str : string) (index : nat) (c : ascii) :
  ((index < String.length str)%nat ->
     String.length (replaceCharAt str (Z.of_nat index) (String c "")) = String.length str
     /\ String.get index (replaceCharAt str (Z.of_nat index) (String c "")) = Some c
     /\ forall j, j <> index ->
          String.get j (replaceCharAt str (Z.of_nat index) (String c ""))
          = String.get j str)
  /\ ((String.length str <= index)%nat ->
      forall char, replaceCharAt str (Z.of_nat index) char = str).
Proof.
  split.
  - intros H. destruct (get_some_lt str index H) as (d & G).
    destruct (get_split _ _ _ G) as (p & t & -> & <-).
    rewrite replaceCharAt_app. cbn [append].
    split; [rewrite !length_app; reflexivity|].
    split; [apply get_app_length|].
    intros j Hj. destruct (Nat.lt_ge_cases j (String.length p)) as [L|L].
    + now rewrite !get_app_lt by assumption.
    + replace j with (String.length p + (j - String.length p))%nat by lia.
      rewrite !get_app_ge.
      destruct (j - String.length p)%nat as [|m] eqn:Em; [lia | reflexivity].
  - intros H char. unfold replaceCharAt.
    destruct (Z.gtb_spec (Z.of_nat index) (Z.of_nat (String.length str) - 1));
      [reflexivity | lia].
Qed.

Lemma replaceCharAt_positions_witness :
  String.length (replaceCharAt "0000000000000009" 15 "A") = 16%nat
  /\ String.get 15 (replaceCharAt "0000000000000009" 15 "A") = Some "A"%char
  /\ replaceCharAt "0009" 4 "A" = "0009".
Proof.
  destruct (replaceCharAt_positions "0000000000000009" 15 "A"%char) as [Hin _].
  destruct (replaceCharAt_positions "0009" 4 "A"%char) as [_ Hout].
  destruct Hin as (L & G & _); [cbn; lia|].
  split; [exact L|]. split; [exact G|]. apply Hout. cbn. lia.
Defined.

Lemma encodeRandom_draws_witness :
  exists s, encodeRandom 16 zero_bytes = (s, advance_by 16 zero_bytes)
            /\ String.length s = 16%nat
            /\ all_base32 s = true
            /\ String.get (16 - 1 - 0) s
               = js_index ENCODING (byte_value (entropy zero_bytes (drawn zero_bytes + 0)) / 8).
Proof.
  destruct (encodeRandom_draws 16 zero_bytes) as (s & E & L & A & G).
  exists s. split; [exact E|]. split; [exact L|]. split; [exact A|].
  apply G. lia.
Defined.

(** * Further properties of incrementBase32 *)

(** X6. On a well-formed string of at most 16 characters that is not
    all ['Z'], [incrementBase32] returns the successor: a well-formed
    string of the same length that denotes the next number and sorts
    strictly after its argument. *)
Theorem incrementBase32_successor (s : string) :
  (String.length s <= RANDOM_LEN)%nat -> all_base32 s = true ->
  s <> js_repeat "Z" (String.length s) ->
  exists s', incrementBase32 s = Ok s'
             /\ String.length s' = String.length s
             /\ all_base32 s' = true
             /\ base32_value s' = base32_value s + 1
             /\ lex_lt s s'.
Proof.
  intros Hlen Hwf Hne.
  destruct (incrementBase32_value s Hlen Hwf Hne) as (s' & E & L & A & V).
  exists s'. repeat split; try assumption.
  apply lex_lt_base32_value; try assumption; [congruence | lia].
Qed.

Lemma incrementBase32_successor_witness :
  exists s', incrementBase32 "00ZZ" = Ok s'
             /\ String.length s' = String.length "00ZZ"
             /\ all_base32 s' = true
             /\ base32_value s' = base32_value "00ZZ" + 1
             /\ lex_lt "00ZZ" s'.
Proof.
  apply incrementBase32_successor.
  - unfold RANDOM_LEN. cbn. lia.
  - reflexivity.
  - vm_compute. discriminate.
Defined.

(** X7. Incrementing a well-formed random field (16 characters) [n]
    times in a row succeeds exactly while the number it denotes stays
    below [32^16]: then the result denotes the number plus [n]; otherwise
    the run ends in the "maximum value" error. *)
Theorem increment_times_field (n : nat) :
  forall s : string,
  String.length s = RANDOM_LEN -> all_base32 s = true ->
  (base32_value s + Z.of_nat n < 32 ^ Z.of_nat RANDOM_LEN ->
     exists s', increment_times n s = Ok s'
                /\ String.length s' = RANDOM_LEN
                /\ all_base32 s' = true
                /\ base32_value s' = base32_value s + Z.of_nat n)
  /\ (32 ^ Z.of_nat RANDOM_LEN <= base32_value s + Z.of_nat n ->
      increment_times n s = Err ErrMaximum).
Proof.
  induction n as [|n IH]; intros s L A.
  - pose proof (base32_value_bound s A) as B. rewrite L in B. split.
    + intros _. exists s. cbn [increment_times]. repeat split; try assumption. lia.
    + intros H. lia.
  - cbn [increment_times].
    pose proof (base32_value_bound s A) as B. rewrite L in B.
    destruct (string_dec s (js_repeat "Z" RANDOM_LEN)) as [E|NE].
    + subst s. rewrite base32_value_Z in *. split; [lia|].
      intros _. reflexivity.
    + destruct (incrementBase32_value s) as (s1 & E1 & L1 & A1 & V1);
        [lia | assumption | now rewrite L |].
      rewrite E1. cbn [bind]. rewrite L in L1.
      destruct (IH s1 L1 A1) as [Hok Herr]. rewrite V1 in Hok, Herr. split.
      * intros H. destruct Hok as (s' & E' & L' & A' & V'); [lia|].
        exists s'. repeat split; try assumption. lia.
      * intros H. apply Herr. lia.
Qed.

Lemma increment_times_field_witness :
  (exists s', increment_times 3 "ZZZZZZZZZZZZZZZ0" = Ok s'
              /\ String.length s' = RANDOM_LEN
              /\ all_base32 s' = true
              /\ base32_value s' = base32_value "ZZZZZZZZZZZZZZZ0" + Z.of_nat 3)
  /\ increment_times 32 "ZZZZZZZZZZZZZZZ0" = Err ErrMaximum.
Proof.
  split.
  - apply (increment_times_field 3 "ZZZZZZZZZZZZZZZ0"); [reflexivity | reflexivity |].
    vm_compute. reflexivity.
  - apply (increment_times_field 32 "ZZZZZZZZZZZZZZZ0"); [reflexivity | reflexivity |].
    vm_compute. discriminate.
Defined.

(** X8. A string of fewer than sixteen ['Z'], the empty string included,
    is not reported as the maximum: the loop wraps every character to
    ['0'], steps past the left end, reads [undefined] there and throws
    "Incorrectly encoded string". *)
Theorem incrementBase32_short_all_Z (k : nat) :
  (k < RANDOM_LEN)%nat ->
  incrementBase32 (js_repeat "Z" k) = Err ErrIncorrectlyEncoded
  /\ ~ fails_with (incrementBase32 (js_repeat "Z" k)) OverflowError.
Proof.
  intros Hk. pose proof (incrementBase32_short_maximum k Hk) as E.
  split; [exact E|]. intros (e & E' & K). rewrite E in E'.
  injection E' as <-. discriminate K.
Qed.

Lemma incrementBase32_short_all_Z_witness :
  incrementBase32 "" = Err ErrIncorrectlyEncoded
  /\ ~ fails_with (incrementBase32 "") OverflowError.
Proof. apply (incrementBase32_short_all_Z 0). unfold RANDOM_LEN. lia. Defined.

Lemma trailing_Z_split (s : string) :
  (exists k, s = js_repeat "Z" k)
  \/ (exists p c k, s = p ++ String c (js_repeat "Z" k) /\ c <> "Z"%char).
Proof.
  induction s as [|s c IH] using string_snoc_ind.
  - left. now exists 0%nat.
  - destruct (Ascii.ascii_dec c "Z"%char) as [->|Hc].
    + destruct IH as [(k & ->) | (p & d & k & -> & Hd)].
      * left. exists (S k). now rewrite js_repeat_snoc.
      * right. exists p, d, (S k). split; [|exact Hd].
        rewrite js_repeat_snoc, app_assoc. reflexivity.
    + right. exists s, c, 0%nat. now split.
Qed.

Lemma ascii_compare_refl (c : ascii) : Ascii.compare c c = Eq.
Proof. unfold Ascii.compare. apply N.compare_refl. Qed.

(** Strings with equal-length fronts compare by the fronts first. *)
Lemma compare_app (p1 p2 r1 r2 : string) :
  String.length p1 = String.length p2 ->
  String.compare (p1 ++ r1) (p2 ++ r2)
  = match String.compare p1 p2 with
    | Eq => String.compare r1 r2
    | c => c
    end.
Proof.
  revert p2. induction p1 as [|c p1 IH]; intros [|d p2] H; try discriminate H.
  - reflexivity.
  - injection H as H. cbn [append String.compare].
    destruct (Ascii.compare c d); [apply IH; exact H | reflexivity | reflexivity].
Qed.

Lemma compare_refl (s : string) : String.compare s s = Eq.
Proof.
  induction s as [|c s IH]; [reflexivity|].
  cbn. now rewrite ascii_compare_refl.
Qed.

(** X9. Whatever the string, well-formed or not: when [incrementBase32]
    returns, the result has the length of the argument and sorts strictly
    after it; when it throws, the error is "cannot be longer than 16
    characters" exactly on longer strings, "maximum value" exactly on
    sixteen ['Z'], and "Incorrectly encoded string" otherwise.  The
    "Failed incrementing string" throw after the loop is never reached. *)
Theorem incrementBase32_outcome (s : string) :
  (forall s', incrementBase32 s = Ok s' ->
     String.length s' = String.length s /\ lex_lt s s')
  /\ (forall e, incrementBase32 s = Err e ->
        (e = ErrTooLong /\ (RANDOM_LEN < String.length s)%nat)
        \/ (e = ErrMaximum /\ s = js_repeat "Z" RANDOM_LEN)
        \/ (e = ErrIncorrectlyEncoded
            /\ (String.length s <= RANDOM_LEN)%nat
            /\ s <> js_repeat "Z" RANDOM_LEN)).
Proof.
  split.
  - intros s' H.
    assert (Hlen : (String.length s <= RANDOM_LEN)%nat).
    { unfold incrementBase32 in H.
      destruct (Nat.ltb_spec RANDOM_LEN (String.length s)); [discriminate H | lia]. }
    destruct (trailing_Z_split s) as [(k & ->) | (p & c & k & -> & Hc)].
    + rewrite length_js_repeat in Hlen.
      destruct (Nat.eq_dec k RANDOM_LEN) as [->|Hk]; [discriminate H|].
      rewrite incrementBase32_short_maximum in H by lia. discriminate H.
    + rewrite incrementBase32_rightmost in H by assumption.
      destruct (is_base32 c) eqn:W; [|discriminate H].
      pose proof (indexOf_range c W) as Hr.
      assert (Hne : ENCODING_indexOf (Some c) <> ENCODING_LEN - 1)
        by (intros E; apply indexOf_last in E; contradiction).
      change (ENCODING_LEN - 1) with 31 in Hne.
      destruct (indexOf_index (ENCODING_indexOf (Some c) + 1)) as (c' & G & I & W');
        [lia|].
      rewrite G in H. cbn [js_str append] in H. injection H as <-.
      split.
      * rewrite !length_app. cbn [String.length]. now rewrite !length_js_repeat.
      * unfold lex_lt, String.ltb. rewrite compare_app by reflexivity.
        rewrite compare_refl. cbn [String.compare].
        rewrite (ascii_compare_indexOf c c' W W'), I.
        replace (ENCODING_indexOf (Some c) ?= ENCODING_indexOf (Some c) + 1) with Lt
          by (symmetry; apply Z.compare_lt_iff; lia).
        reflexivity.
  - intros e H. unfold incrementBase32 in H.
    destruct (Nat.ltb_spec RANDOM_LEN (String.length s)) as [L|L].
    { injection H as <-. left. now split. }
    destruct (String.eqb_spec s (js_repeat "Z" RANDOM_LEN)) as [E|NE].
    { injection H as <-. right. left. now split. }
    rewrite incrementBase32_loop_scan in H by lia.
    apply scan_errors in H. right. right. now repeat split.
Qed.

Lemma incrementBase32_outcome_witness :
  String.length "!1" = String.length "!0" /\ lex_lt "!0" "!1".
Proof. apply (proj1 (incrementBase32_outcome "!0")). reflexivity. Defined.

(** * Further properties of decodeTime *)

Lemma last_invalid_none (s : string) :
  last_invalid s = None <-> all_base32 s = true.
Proof.
  induction s as [|c s IH]; cbn [last_invalid all_base32]; [tauto|].
  destruct (last_invalid s) as [d|].
  - split; [discriminate|]. intros H. apply andb_true_iff in H as [_ H].
    apply IH in H. discriminate H.
  - destruct (is_base32 c); cbn [andb].
    + split; [intros _; now apply IH | reflexivity].
    + split; discriminate.
Qed.

Lemma decode_digits_last_invalid (s : string) (c : ascii) :
  last_invalid s = Some c -> decode_digits s = Err (ErrInvalidCharacter c).
Proof.
  revert c. induction s as [|d s IH]; intros c H; [discriminate H|].
  rewrite decode_digits_cons. cbn [last_invalid] in H.
  destruct (last_invalid s) as [e|] eqn:L.
  - injection H as <-. now rewrite (IH e eq_refl).
  - apply last_invalid_none in L.
    pose proof (decode_digits_value s) as D. rewrite L in D. rewrite D. cbn [bind].
    unfold is_base32 in H.
    destruct (ENCODING_indexOf (Some d) =? -1); cbn [negb] in H; congruence.
Qed.

Lemma length_substring_0 (n : nat) :
  forall s, (n <= String.length s)%nat -> String.length (substring 0 n s) = n.
Proof.
  induction n as [|n IH]; intros [|c s] H; cbn in *; try reflexivity; try lia.
  rewrite IH by lia. reflexivity.
Qed.

Lemma substring_0_split (n : nat) :
  forall s, exists r, s = substring 0 n s ++ r.
Proof.
  induction n as [|n IH]; intros [|c s]; cbn.
  - now exists "".
  - now exists (String c s).
  - now exists "".
  - destruct (IH s) as (r & E). exists r. now rewrite <- E.
Qed.

(** What a successful decoding establishes. *)
Lemma decodeTime_Ok (id : string) (t : Z) :
  decodeTime id = Ok t ->
  String.length id = 26%nat
  /\ all_base32 (substring 0 10 id) = true
  /\ t = base32_value (substring 0 10 id)
  /\ 0 <= t <= TIME_MAX.
Proof.
  rewrite decodeTime_unfold.
  destruct (Nat.eqb_spec (String.length id) 26) as [L|L]; [|discriminate].
  cbn [negb]. pose proof (decode_digits_value (substring 0 10 id)) as D.
  destruct (all_base32 (substring 0 10 id)) eqn:A.
  - rewrite D. cbn [bind].
    destruct (Z.gtb_spec (base32_value (substring 0 10 id)) TIME_MAX); [discriminate|].
    intros [= <-]. pose proof (base32_value_bound _ A). repeat split; try lia; auto.
  - destruct D as (c & _ & ->). discriminate.
Qed.

(** X10. [decodeTime] returns a number only for a 26-character string
    whose first ten characters are alphabet characters; the number is the
    one they denote and lies in [[0, 2^48 - 1]]: nothing negative and
    nothing beyond the largest timestamp is ever returned. *)
Theorem decodeTime_returns (id : string) (t : Z) :
  decodeTime id = Ok t ->
  String.length id = 26%nat
  /\ all_base32 (substring 0 10 id) = true
  /\ t = base32_value (substring 0 10 id)
  /\ 0 <= t <= TIME_MAX.
Proof. apply decodeTime_Ok. Qed.

Lemma decodeTime_returns_witness :
  String.length "7ZZZZZZZZZZZZZZZZZZZZZZZZZ" = 26%nat
  /\ all_base32 (substring 0 10 "7ZZZZZZZZZZZZZZZZZZZZZZZZZ") = true
  /\ 281474976710655 = base32_value (substring 0 10 "7ZZZZZZZZZZZZZZZZZZZZZZZZZ")
  /\ 0 <= 281474976710655 <= TIME_MAX.
Proof. apply decodeTime_returns. vm_compute. reflexivity. Defined.

(** X11. The fold of [decodeTime] runs over the reversed prefix and the
    first [throw] ends it, so among the first ten characters the error
    names the rightmost one outside the alphabet; lower-case letters and
    the letters I, L, O and U are outside it. *)
Theorem decodeTime_names_rightmost (id : string) (c : ascii) :
  String.length id = 26%nat ->
  last_invalid (substring 0 10 id) = Some c ->
  decodeTime id = Err (ErrInvalidCharacter c) /\ is_base32 c = false.
Proof.
  intros L H. rewrite decodeTime_unfold, L. cbn [Nat.eqb negb].
  rewrite (decode_digits_last_invalid _ _ H). split; [reflexivity|].
  clear L. revert H. generalize (substring 0 10 id). intros s.
  induction s as [|d s IH]; cbn [last_invalid]; [discriminate|].
  destruct (last_invalid s) as [e|].
  - intros [= <-]. now apply IH.
  - destruct (is_base32 d) eqn:W; [discriminate | intros [= <-]; exact W].
Qed.

Lemma decodeTime_names_rightmost_witness :
  decodeTime "0I000u0L001SV4RRFFQ69G5FAV" = Err (ErrInvalidCharacter "L")
  /\ is_base32 "L" = false.
Proof. apply decodeTime_names_rightmost; reflexivity. Defined.

(** X12. Encoding is a right inverse of decoding as well: when
    [decodeTime(id)] returns [t], [encodeTime(t, 10)] returns the first
    ten characters of [id]. *)
Theorem encodeTime_decodeTime (id : string) (t : Z) :
  decodeTime id = Ok t ->
  encodeTime (of_Z t) TIME_LEN = Ok (substring 0 10 id).
Proof.
  intros H. apply decodeTime_Ok in H as (L & A & V & B).
  destruct (encodeTime_valid _ (validateTimestamp_of_Z t B)) as (s & E & Ls & As & Vs).
  rewrite E. f_equal. apply base32_value_inj; try assumption.
  - rewrite Ls, length_substring_0; [reflexivity | lia].
  - now rewrite Vs, to_Z_of_Z.
Qed.

Lemma encodeTime_decodeTime_witness :
  encodeTime (of_Z 1469918176385) TIME_LEN
  = Ok (substring 0 10 "01ARYZ6S41TSV4RRFFQ69G5FAV").
Proof. apply encodeTime_decodeTime. vm_compute. reflexivity. Defined.

(** X13. Sorting identifiers sorts them by time: of two strings that
    [decodeTime] accepts, the lexicographically smaller one never has the
    later timestamp, and an earlier timestamp makes a string
    lexicographically smaller whatever the random parts are. *)
Theorem decodeTime_monotone (id1 id2 : string) (t1 t2 : Z) :
  decodeTime id1 = Ok t1 -> decodeTime id2 = Ok t2 ->
  (lex_lt id1 id2 -> t1 <= t2) /\ (t1 < t2 -> lex_lt id1 id2).
Proof.
  intros H1 H2.
  apply decodeTime_Ok in H1 as (L1 & A1 & V1 & _).
  apply decodeTime_Ok in H2 as (L2 & A2 & V2 & _).
  destruct (substring_0_split 10 id1) as (r1 & E1).
  destruct (substring_0_split 10 id2) as (r2 & E2).
  assert (Lp : String.length (substring 0 10 id1) = String.length (substring 0 10 id2))
    by (rewrite !length_substring_0 by lia; reflexivity).
  pose proof (compare_base32_value _ _ Lp A1 A2) as C.
  rewrite <- V1, <- V2 in C.
  unfold lex_lt, String.ltb. rewrite E1, E2, compare_app by exact Lp. rewrite C.
  destruct (Z.compare_spec t1 t2) as [E|Lt|Gt]; split; intros H; try lia;
    try reflexivity; try discriminate H.
Qed.

Lemma decodeTime_monotone_witness :
  (lex_lt "01ARYZ6S41ZZZZZZZZZZZZZZZZ" "01ARYZ6S420000000000000000" ->
   1469918176385 <= 1469918176386)
  /\ (1469918176385 < 1469918176386 ->
      lex_lt "01ARYZ6S41ZZZZZZZZZZZZZZZZ" "01ARYZ6S420000000000000000").
Proof. apply decodeTime_monotone; vm_compute; reflexivity. Defined.

(** * Further properties of the generators *)

Lemma encodeRandom_world (len : nat) (w : world) :
  exists s, encodeRandom len w = (s, advance_by len w)
            /\ String.length s = len /\ all_base32 s = true.
Proof.
  destruct (encodeRandom_loop_draws len "" w) as (s & E & L & _).
  destruct (encodeRandom_base32 len w) as (s' & w' & E' & _ & A).
  unfold encodeRandom in *. rewrite E, app_empty_r in *.
  injection E' as <- _. exists s. auto.
Qed.

Lemma timestampOrNow_number (c : call) : timestampOrNow c <> NaN.
Proof.
  unfold timestampOrNow. destruct (timestamp c) as [[| |q]|]; cbn; try discriminate.
  destruct (negb (Qeq_bool q 0)); discriminate.
Qed.

Lemma validateTimestamp_Err (t : number) (e : error) :
  validateTimestamp t = Err e ->
  (e = ErrNotANumber /\ t = NaN) \/ e = ErrTooLarge \/ e = ErrNegative
  \/ e = ErrNotInteger.
Proof.
  unfold validateTimestamp. destruct t as [| |q]; cbn [isNaN].
  - intros [= <-]. auto.
  - destruct (num_gt _ _); [intros [= <-]; auto|].
    destruct (num_lt _ _); [intros [= <-]; auto|].
    destruct (negb _); [intros [= <-]; auto | discriminate].
  - destruct (num_gt _ _); [intros [= <-]; auto|].
    destruct (num_lt _ _); [intros [= <-]; auto|].
    destruct (negb _); [intros [= <-]; auto | discriminate].
Qed.

Lemma monotonic_call_invalid (vars : closure) (w : world) (c : call) (e : error) :
  validateTimestamp (timestampOrNow c) = Err e ->
  monotonic_call vars w c = (Err e, vars, w).
Proof. intros H. unfold monotonic_call. now rewrite H. Qed.

(** The branch taken when the resolved timestamp exceeds [lastTime]. *)
Lemma monotonic_call_advance (vars : closure) (w : world) (c : call) :
  validateTimestamp (lastTime vars) = Ok tt ->
  validateTimestamp (timestampOrNow c) = Ok tt ->
  to_Z (lastTime vars) < to_Z (timestampOrNow c) ->
  exists time random,
    encodeTime (timestampOrNow c) TIME_LEN = Ok time
    /\ String.length time = TIME_LEN /\ all_base32 time = true
    /\ base32_value time = to_Z (timestampOrNow c)
    /\ String.length random = RANDOM_LEN /\ all_base32 random = true
    /\ monotonic_call vars w c
       = (Ok (time ++ random),
          {| lastTime := timestampOrNow c; lastRandom := Some random |},
          advance_by RANDOM_LEN w).
Proof.
  intros Hlast Hv Hlt.
  destruct (encodeTime_valid _ Hv) as (time & Et & Lt & At & Vt).
  destruct (encodeRandom_world RANDOM_LEN w) as (random & Er & Lr & Ar).
  exists time, random. repeat split; try assumption.
  unfold monotonic_call. rewrite Hv, (num_gt_valid _ _ Hv Hlast).
  destruct (Z.ltb_spec (to_Z (lastTime vars)) (to_Z (timestampOrNow c))); [|lia].
  now rewrite Er, Et.
Qed.

(** The other branch, [lastRandom] assigned or not. *)
Lemma monotonic_call_stall (vars : closure) (w : world) (c : call) :
  validateTimestamp (lastTime vars) = Ok tt ->
  validateTimestamp (timestampOrNow c) = Ok tt ->
  to_Z (timestampOrNow c) <= to_Z (lastTime vars) ->
  monotonic_call vars w c
  = match incrementBase32_var (lastRandom vars) with
    | Ok random' =>
        (time <- encodeTime (lastTime vars) TIME_LEN ;; Ok (time ++ random'),
         {| lastTime := lastTime vars; lastRandom := Some random' |}, w)
    | Err e => (Err e, vars, w)
    end.
Proof.
  intros Hlast Hv Hle. unfold monotonic_call.
  rewrite Hv, (num_gt_valid _ _ Hv Hlast).
  destruct (Z.ltb_spec (to_Z (lastTime vars)) (to_Z (timestampOrNow c))); [lia|].
  reflexivity.
Qed.

(** On a well-formed random field the only failure is the maximum. *)
Lemma incrementBase32_field (random : string) :
  String.length random = RANDOM_LEN -> all_base32 random = true ->
  (random = js_repeat "Z" RANDOM_LEN /\ incrementBase32 random = Err ErrMaximum)
  \/ (exists random', incrementBase32 random = Ok random'
                      /\ String.length random' = RANDOM_LEN
                      /\ all_base32 random' = true
                      /\ base32_value random' = base32_value random + 1).
Proof.
  intros L A. destruct (string_dec random (js_repeat "Z" RANDOM_LEN)) as [->|NE].
  - left. now split.
  - right. destruct (incrementBase32_value random) as (r & E & Lr & Ar & Vr);
      [lia | assumption | now rewrite L |].
    exists r. rewrite L in Lr. auto.
Qed.

(** The functions a factory call can have become. *)
Lemma run_reaches (monotonic : option bool) (w0 w1 : world) (calls : list call)
    (rs : list (result string)) (f : ULIDFactory) :
  run (ulidFactory monotonic) w0 calls = (rs, f, w1) ->
  f = NonMonotonic \/ exists vars, f = Monotonic vars /\ consistent vars.
Proof.
  intros Hrun.
  assert (Hcase : monotonic = Some false \/ monotonic <> Some false).
  { destruct monotonic as [[|]|]; [right | left | right]; congruence. }
  destruct Hcase as [-> | Hm].
  - left. cbn [ulidFactory] in Hrun. now apply run_nonmonotonic in Hrun.
  - right. rewrite (ulidFactory_monotonic _ Hm) in Hrun.
    destruct (run_monotonic calls _ w0 consistent_fresh)
      as (rs0 & vars & w2 & Hrun0 & Hc & _).
    rewrite Hrun in Hrun0. injection Hrun0 as _ -> _. now exists vars.
Qed.

Lemma monotonic_call_Err (vars : closure) (w : world) (c : call)
    (e : error) (vars' : closure) (w' : world) :
  consistent vars ->
  monotonic_call vars w c = (Err e, vars', w') ->
  vars' = vars /\ w' = w
  /\ (e = ErrTooLarge \/ e = ErrNegative \/ e = ErrNotInteger
      \/ (e = ErrMaximum /\ lastRandom vars = Some (js_repeat "Z" RANDOM_LEN))
      \/ (e = ErrUndefinedLength /\ lastRandom vars = None)).
Proof.
  intros [Hlast Hrand] H.
  destruct (validateTimestamp (timestampOrNow c)) as [[]|e0] eqn:Hv.
  2:{ rewrite (monotonic_call_invalid _ _ _ _ Hv) in H. injection H as <- <- <-.
      split; [reflexivity|]. split; [reflexivity|].
      destruct (validateTimestamp_Err _ _ Hv) as [[_ N]|[->|[->| ->]]]; auto.
      now apply timestampOrNow_number in N. }
  destruct (Z.lt_ge_cases (to_Z (lastTime vars)) (to_Z (timestampOrNow c))) as [Hlt|Hle].
  - destruct (monotonic_call_advance vars w c Hlast Hv Hlt)
      as (time & random & _ & _ & _ & _ & _ & _ & E).
    rewrite E in H. discriminate H.
  - rewrite (monotonic_call_stall vars w c Hlast Hv Hle) in H.
    destruct (lastRandom vars) as [random|] eqn:Er; cbn [incrementBase32_var] in H.
    + destruct Hrand as [L A].
      destruct (incrementBase32_field random L A) as [[-> Ei]|(r & Ei & _)];
        rewrite Ei in H.
      * injection H as <- <- <-. auto 10.
      * destruct (encodeTime_valid _ Hlast) as (time & Et & _).
        rewrite Et in H. discriminate H.
    + injection H as <- <- <-. auto 10.
Qed.

Lemma nonmonotonic_call_cases (w : world) (c : call) :
  match validateTimestamp (timestampOrNow c) with
  | Err e => nonmonotonic_call w c = (Err e, w)
  | Ok _ =>
      exists time random,
        encodeTime (timestampOrNow c) TIME_LEN = Ok time
        /\ String.length time = TIME_LEN /\ all_base32 time = true
        /\ base32_value time = to_Z (timestampOrNow c)
        /\ String.length random = RANDOM_LEN /\ all_base32 random = true
        /\ nonmonotonic_call w c = (Ok (time ++ random), advance_by RANDOM_LEN w)
  end.
Proof.
  unfold nonmonotonic_call.
  destruct (validateTimestamp (timestampOrNow c)) as [[]|e] eqn:Hv; [|reflexivity].
  destruct (encodeTime_valid _ Hv) as (time & Et & Lt & At & Vt).
  destruct (encodeRandom_world RANDOM_LEN w) as (random & Er & Lr & Ar).
  exists time, random. rewrite Et, Er. repeat split; assumption.
Qed.

(** X14. A call that throws changes nothing: on either variant, in any
    state a sequence of calls can lead to, the captured variables are as
    before the call and no random byte was drawn. *)
Theorem generate_failure_atomic (monotonic : option bool) (w0 w1 w w' : world)
    (calls : list call) (rs : list (result string)) (f f' : ULIDFactory)
    (c : call) (e : error) :
  run (ulidFactory monotonic) w0 calls = (rs, f, w1) ->
  generate f w c = (Err e, f', w') ->
  f' = f /\ w' = w.
Proof.
  intros Hrun Hgen. destruct (run_reaches _ _ _ _ _ _ Hrun) as [->|(vars & -> & Hc)].
  - cbn [generate] in Hgen. pose proof (nonmonotonic_call_cases w c) as N.
    destruct (validateTimestamp (timestampOrNow c)) as [[]|e0].
    + destruct N as (time & random & _ & _ & _ & _ & _ & _ & E).
      rewrite E in Hgen. discriminate Hgen.
    + rewrite N in Hgen. injection Hgen as _ <- <-. now split.
  - destruct (generate_monotonic vars w c) as (r & vars' & w2 & Hcall & Hg).
    rewrite Hgen in Hg. injection Hg as <- -> ->.
    destruct (monotonic_call_Err _ _ _ _ _ _ Hc Hcall) as (-> & -> & _). now split.
Qed.

Lemma generate_failure_atomic_witness :
  Monotonic {| lastTime := of_Z 1469918176385; lastRandom := Some "0000000000000000" |}
  = Monotonic {| lastTime := of_Z 1469918176385; lastRandom := Some "0000000000000000" |}
  /\ zero_bytes = zero_bytes.
Proof.
  pose (vars := {| lastTime := of_Z 1469918176385;
                   lastRandom := Some "0000000000000000" |}).
  pose (w1 := {| entropy := entropy zero_bytes; drawn := 16 |}).
  assert (E : run (ulidFactory None) zero_bytes [explicit 1469918176385 0]
              = ([Ok "01ARYZ6S410000000000000000"], Monotonic vars, w1))
    by (vm_compute; reflexivity).
  assert (G : generate (Monotonic vars) zero_bytes (explicit (-1) 0)
              = (Err ErrNegative, Monotonic vars, zero_bytes))
    by (vm_compute; reflexivity).
  exact (generate_failure_atomic None zero_bytes w1 zero_bytes zero_bytes
           [explicit 1469918176385 0] [Ok "01ARYZ6S410000000000000000"]
           (Monotonic vars) (Monotonic vars) (explicit (-1) 0) ErrNegative E G).
Defined.

(** X15. The errors a generated function can throw: a timestamp above
    [2^48 - 1], a negative one, a fractional one, and, on the monotonic
    variant only, the exhausted random field or the field that was never
    assigned.  A [NaN] argument is replaced by the clock, so "must be a
    number" is never thrown; [lastRandom] is always a well-formed field of
    sixteen characters, so neither the length error nor "Incorrectly
    encoded string" is. *)
Theorem generate_errors (monotonic : option bool) (w0 w1 w w' : world)
    (calls : list call) (rs : list (result string)) (f f' : ULIDFactory)
    (c : call) (e : error) :
  run (ulidFactory monotonic) w0 calls = (rs, f, w1) ->
  generate f w c = (Err e, f', w') ->
  e = ErrTooLarge \/ e = ErrNegative \/ e = ErrNotInteger
  \/ (f <> NonMonotonic /\ (e = ErrMaximum \/ e = ErrUndefinedLength)).
Proof.
  intros Hrun Hgen. destruct (run_reaches _ _ _ _ _ _ Hrun) as [->|(vars & -> & Hc)].
  - cbn [generate] in Hgen. pose proof (nonmonotonic_call_cases w c) as N.
    destruct (validateTimestamp (timestampOrNow c)) as [[]|e0] eqn:Hv.
    + destruct N as (time & random & _ & _ & _ & _ & _ & _ & E).
      rewrite E in Hgen. discriminate Hgen.
    + rewrite N in Hgen. injection Hgen as <- _ _.
      destruct (validateTimestamp_Err _ _ Hv) as [[_ N']|[->|[->| ->]]]; auto.
      now apply timestampOrNow_number in N'.
  - destruct (generate_monotonic vars w c) as (r & vars' & w2 & Hcall & Hg).
    rewrite Hgen in Hg. injection Hg as <- _ _.
    destruct (monotonic_call_Err _ _ _ _ _ _ Hc Hcall)
      as (_ & _ & [->|[->|[->|[[-> _]|[-> _]]]]]); auto.
    + right. right. right. split; [discriminate | now left].
    + right. right. right. split; [discriminate | now right].
Qed.

Lemma generate_errors_witness :
  ErrUndefinedLength = ErrTooLarge \/ ErrUndefinedLength = ErrNegative
  \/ ErrUndefinedLength = ErrNotInteger
  \/ (ulidFactory None <> NonMonotonic
      /\ (ErrUndefinedLength = ErrMaximum \/ ErrUndefinedLength = ErrUndefinedLength)).
Proof.
  assert (E : run (ulidFactory None) zero_bytes [] = ([], ulidFactory None, zero_bytes))
    by reflexivity.
  assert (G : generate (ulidFactory None) zero_bytes
                {| timestamp := Some NaN; Date_now := 0 |}
              = (Err ErrUndefinedLength, ulidFactory None, zero_bytes))
    by (vm_compute; reflexivity).
  exact (generate_errors None zero_bytes zero_bytes zero_bytes zero_bytes [] []
           (ulidFactory None) (ulidFactory None)
           {| timestamp := Some NaN; Date_now := 0 |} ErrUndefinedLength E G).
Defined.

Lemma decodeTime_parts (time random : string) :
  String.length time = TIME_LEN -> all_base32 time = true ->
  base32_value time <= TIME_MAX -> String.length random = RANDOM_LEN ->
  decodeTime (time ++ random) = Ok (base32_value time).
Proof.
  intros Lt At Vt Lr. rewrite decodeTime_app by assumption.
  pose proof (decode_digits_value time) as D. rewrite At in D. rewrite D. cbn [bind].
  destruct (Z.gtb_spec (base32_value time) TIME_MAX); [lia | reflexivity].
Qed.

Lemma valid_range (t : number) :
  validateTimestamp t = Ok tt -> 0 <= to_Z t <= TIME_MAX.
Proof. intros H. now apply validateTimestamp_Ok in H as (_ & _ & _ & B). Qed.

(** X16. The timestamp of a monotonic generator never goes back: a call
    that returns an identifier returns one that [decodeTime] maps to the
    larger of [lastTime] and the resolved timestamp, and that value is the
    new [lastTime].  Sixteen random bytes are drawn when the resolved
    timestamp is the larger one, none otherwise. *)
Theorem monotonic_timestamp_maximum (monotonic : option bool) (w0 w1 w w' : world)
    (calls : list call) (rs : list (result string)) (vars vars' : closure)
    (c : call) (id : string) :
  run (ulidFactory monotonic) w0 calls = (rs, Monotonic vars, w1) ->
  monotonic_call vars w c = (Ok id, vars', w') ->
  decodeTime id = Ok (Z.max (to_Z (lastTime vars)) (to_Z (timestampOrNow c)))
  /\ to_Z (lastTime vars') = Z.max (to_Z (lastTime vars)) (to_Z (timestampOrNow c))
  /\ w' = (if to_Z (lastTime vars) <? to_Z (timestampOrNow c)
           then advance_by RANDOM_LEN w else w).
Proof.
  intros Hrun Hcall.
  destruct (run_reaches _ _ _ _ _ _ Hrun) as [H|(vars0 & H & Hc)]; [discriminate H|].
  injection H as <-. destruct Hc as [Hlast Hrand].
  destruct (validateTimestamp (timestampOrNow c)) as [[]|e] eqn:Hv.
  2:{ rewrite (monotonic_call_invalid _ _ _ _ Hv) in Hcall. discriminate Hcall. }
  pose proof (valid_range _ Hv) as Bt. pose proof (valid_range _ Hlast) as Bl.
  destruct (Z.ltb_spec (to_Z (lastTime vars)) (to_Z (timestampOrNow c))) as [Hlt|Hle].
  - destruct (monotonic_call_advance vars w c Hlast Hv Hlt)
      as (time & random & _ & Lt & At & Vt & Lr & Ar & E).
    rewrite E in Hcall. injection Hcall as <- <- <-. cbn [lastTime].
    rewrite Z.max_r by lia. split; [|now split].
    rewrite <- Vt. apply decodeTime_parts; try assumption. lia.
  - rewrite (monotonic_call_stall vars w c Hlast Hv Hle) in Hcall.
    destruct (lastRandom vars) as [random|]; cbn [incrementBase32_var] in Hcall;
      [|discriminate Hcall].
    destruct Hrand as [L A].
    destruct (incrementBase32_field random L A) as [[_ Ei]|(r & Ei & Lr & _)];
      rewrite Ei in Hcall; [discriminate Hcall|].
    destruct (encodeTime_valid _ Hlast) as (time & Et & Lt & At & Vt).
    rewrite Et in Hcall. injection Hcall as <- <- <-. cbn [lastTime].
    rewrite Z.max_l by lia. split; [|now split].
    rewrite <- Vt. apply decodeTime_parts; try assumption. lia.
Qed.

Lemma monotonic_timestamp_maximum_witness :
  decodeTime "01ARYZ6S410000000000000001"
  = Ok (Z.max (to_Z (of_Z 1469918176385))
          (to_Z (timestampOrNow (explicit 1469918175385 0)))).
Proof.
  pose (vars := {| lastTime := of_Z 1469918176385;
                   lastRandom := Some "0000000000000000" |}).
  pose (vars' := {| lastTime := of_Z 1469918176385;
                    lastRandom := Some "0000000000000001" |}).
  pose (w1 := {| entropy := entropy zero_bytes; drawn := 16 |}).
  assert (E : run (ulidFactory None) zero_bytes [explicit 1469918176385 0]
              = ([Ok "01ARYZ6S410000000000000000"], Monotonic vars, w1))
    by (vm_compute; reflexivity).
  assert (G : monotonic_call vars zero_bytes (explicit 1469918175385 0)
              = (Ok "01ARYZ6S410000000000000001", vars', zero_bytes))
    by (vm_compute; reflexivity).
  exact (proj1 (monotonic_timestamp_maximum None zero_bytes w1 zero_bytes zero_bytes
                  [explicit 1469918176385 0] [Ok "01ARYZ6S410000000000000000"]
                  vars vars' (explicit 1469918175385 0)
                  "01ARYZ6S410000000000000001" E G)).
Defined.

Lemma lex_lt_irrefl (s : string) : ~ lex_lt s s.
Proof. unfold lex_lt, String.ltb. now rewrite compare_refl. Qed.

Lemma sorted_NoDup (l : list string) : StronglySorted lex_lt l -> NoDup l.
Proof.
  induction 1 as [|x l _ IH Hall]; constructor; [|exact IH].
  intros Hin. rewrite Forall_forall in Hall.
  exact (lex_lt_irrefl x (Hall x Hin)).
Qed.

(** X17. One monotonic generator never emits the same identifier twice,
    whatever the timestamps, the clock and the random bytes, and whether
    or not calls in between throw. *)
Theorem monotonic_ids_distinct (monotonic : option bool) (w : world)
    (calls : list call) :
  monotonic <> Some false ->
  NoDup (emitted (fst (fst (run (ulidFactory monotonic) w calls)))).
Proof.
  intros Hm. rewrite (ulidFactory_monotonic _ Hm).
  destruct (run_monotonic calls _ w consistent_fresh)
    as (rs & vars' & w' & Hrun & _ & _ & _ & Hsorted).
  rewrite Hrun. now apply sorted_NoDup.
Qed.

Lemma monotonic_ids_distinct_witness :
  NoDup (emitted (fst (fst (run (ulidFactory None) zero_bytes
                              [explicit 5 0; explicit 5 0; explicit (-1) 0;
                               explicit 4 0])))).
Proof. apply monotonic_ids_distinct. discriminate. Defined.

Lemma constant_string (s : string) (c : ascii) :
  (forall j, (j < String.length s)%nat -> String.get j s = Some c) ->
  s = js_repeat (String c "") (String.length s).
Proof.
  induction s as [|d s IH]; intros H; [reflexivity|].
  cbn [String.length js_repeat append].
  pose proof (H 0%nat ltac:(cbn; lia)) as H0. cbn in H0. injection H0 as ->.
  f_equal. apply IH. intros j Hj. apply (H (S j)). cbn. lia.
Qed.

(** X18. The random field can be exhausted at once.  When the next
    sixteen bytes of the random source are all at least 248, the first
    identifier of a fresh monotonic generator ends in sixteen ['Z'], and a
    second call with the same timestamp throws the "maximum value" error:
    no second identifier exists for that millisecond. *)
Theorem monotonic_exhausted (w : world) (t now1 now2 : Z) :
  0 < t <= TIME_MAX ->
  (forall i, (i < RANDOM_LEN)%nat -> 248 <= byte_value (entropy w (drawn w + i))) ->
  exists time,
    encodeTime (of_Z t) TIME_LEN = Ok time
    /\ fst (fst (run (ulidFactory None) w [explicit t now1; explicit t now2]))
       = [Ok (time ++ js_repeat "Z" RANDOM_LEN); Err ErrMaximum].
Proof.
  intros Ht Hbytes.
  assert (Hv : validateTimestamp (of_Z t) = Ok tt) by (apply validateTimestamp_of_Z; lia).
  destruct (encodeTime_valid _ Hv) as (time & Et & Lt & At & Vt).
  exists time. split; [exact Et|].
  destruct (encodeRandom_loop_draws RANDOM_LEN "" w) as (random & Er & Lr & Gr).
  rewrite app_empty_r in Er.
  assert (EZ : random = js_repeat "Z" RANDOM_LEN).
  { rewrite <- Lr. apply constant_string. intros j Hj. rewrite Lr in Hj.
    replace j with (RANDOM_LEN - 1 - (RANDOM_LEN - 1 - j))%nat by lia.
    rewrite Gr by lia.
    pose proof (Hbytes (RANDOM_LEN - 1 - j)%nat ltac:(lia)) as Hb.
    pose proof (byte_value_range (entropy w (drawn w + (RANDOM_LEN - 1 - j)))) as Rb.
    replace (byte_value (entropy w (drawn w + (RANDOM_LEN - 1 - j))) / 8) with 31;
      [reflexivity|].
    apply Z.div_unique with
      (byte_value (entropy w (drawn w + (RANDOM_LEN - 1 - j))) - 248); lia. }
  subst random.
  assert (H1 : generate (ulidFactory None) w (explicit t now1)
               = (Ok (time ++ js_repeat "Z" RANDOM_LEN),
                  Monotonic {| lastTime := of_Z t;
                               lastRandom := Some (js_repeat "Z" RANDOM_LEN) |},
                  advance_by RANDOM_LEN w)).
  { cbn [ulidFactory generate]. unfold monotonic_call.
    rewrite timestampOrNow_explicit by lia. rewrite Hv. cbn [lastTime].
    rewrite (num_gt_valid _ _ Hv (validateTimestamp_of_Z 0 ltac:(unfold TIME_MAX; lia))).
    rewrite !to_Z_of_Z. destruct (Z.ltb_spec 0 t); [|lia].
    unfold encodeRandom. now rewrite Er, Et. }
  assert (H2 : generate (Monotonic {| lastTime := of_Z t;
                                      lastRandom := Some (js_repeat "Z" RANDOM_LEN) |})
                 (advance_by RANDOM_LEN w) (explicit t now2)
               = (Err ErrMaximum,
                  Monotonic {| lastTime := of_Z t;
                               lastRandom := Some (js_repeat "Z" RANDOM_LEN) |},
                  advance_by RANDOM_LEN w)).
  { cbn [generate]. rewrite monotonic_call_stall.
    - reflexivity.
    - exact Hv.
    - rewrite timestampOrNow_explicit by lia. exact Hv.
    - rewrite timestampOrNow_explicit by lia. cbn [lastTime]. lia. }
  cbn [run]. rewrite H1, H2. reflexivity.
Qed.

Lemma monotonic_exhausted_witness :
  exists time,
    encodeTime (of_Z 1469918176385) TIME_LEN = Ok time
    /\ fst (fst (run (ulidFactory None) {| entropy := fun _ => xff; drawn := 0 |}
                   [explicit 1469918176385 0; explicit 1469918176385 0]))
       = [Ok (time ++ js_repeat "Z" RANDOM_LEN); Err ErrMaximum].
Proof.
  apply monotonic_exhausted.
  - split; vm_compute; [reflexivity | discriminate].
  - intros i _. vm_compute. discriminate.
Defined.

(** While nothing was emitted the captured variables are the initial
    ones. *)
Lemma run_silent (calls : list call) :
  forall (vars vars' : closure) (w w' : world) (rs : list (result string)),
  consistent vars ->
  run (Monotonic vars) w calls = (rs, Monotonic vars', w') ->
  emitted rs = [] -> vars' = vars.
Proof.
  induction calls as [|c calls IH]; intros vars vars' w w' rs Hc Hrun Hem.
  - cbn in Hrun. now injection Hrun as _ <- _.
  - destruct (generate_monotonic vars w c) as (r & vars1 & w1 & Hcall & Hg).
    cbn [run] in Hrun. rewrite Hg in Hrun.
    destruct (run (Monotonic vars1) w1 calls) as [[rs0 f0] w2] eqn:E.
    injection Hrun as <- -> <-.
    destruct r as [id|e]; [discriminate Hem|]. cbn [emitted] in Hem.
    destruct (monotonic_call_step vars w c Hc _ _ _ Hcall) as [Hc1 ->].
    exact (IH _ _ _ _ _ Hc E Hem).
Qed.

(** X19. Until a monotonic generator has emitted its first identifier,
    [lastTime] is still [0] and [lastRandom] unassigned: a call whose
    resolved timestamp is [0] throws on reading [lastRandom] and changes
    nothing, and a call with a resolved timestamp of at least one
    millisecond emits an identifier carrying that timestamp. *)
Theorem monotonic_before_first_id (monotonic : option bool) (w0 w1 w : world)
    (calls : list call) (rs : list (result string)) (vars : closure) (c : call) :
  run (ulidFactory monotonic) w0 calls = (rs, Monotonic vars, w1) ->
  emitted rs = [] ->
  validateTimestamp (timestampOrNow c) = Ok tt ->
  (to_Z (timestampOrNow c) = 0 ->
     monotonic_call vars w c = (Err ErrUndefinedLength, vars, w))
  /\ (0 < to_Z (timestampOrNow c) ->
      exists id vars',
        monotonic_call vars w c = (Ok id, vars', advance_by RANDOM_LEN w)
        /\ decodeTime id = Ok (to_Z (timestampOrNow c))).
Proof.
  intros Hrun Hem Hv.
  assert (Hm : monotonic <> Some false).
  { intros ->. cbn [ulidFactory] in Hrun. apply run_nonmonotonic in Hrun.
    discriminate Hrun. }
  rewrite (ulidFactory_monotonic _ Hm) in Hrun.
  apply (run_silent _ _ _ _ _ _ consistent_fresh) in Hrun; [|exact Hem].
  subst vars. pose proof (valid_range _ Hv) as Bt.
  assert (H0 : validateTimestamp (of_Z 0) = Ok tt) by reflexivity.
  split.
  - intros E. rewrite monotonic_call_stall; [reflexivity | exact H0 | exact Hv |].
    cbn [lastTime]. rewrite to_Z_of_Z. lia.
  - intros Hpos.
    destruct (monotonic_call_advance {| lastTime := of_Z 0; lastRandom := None |} w c)
      as (time & random & _ & Lt & At & Vt & Lr & Ar & E);
      [exact H0 | exact Hv | cbn [lastTime]; rewrite to_Z_of_Z; lia |].
    eexists. eexists. split; [exact E|].
    rewrite <- Vt. apply decodeTime_parts; try assumption. lia.
Qed.

Lemma monotonic_before_first_id_witness :
  monotonic_call {| lastTime := of_Z 0; lastRandom := None |} zero_bytes (absent 0)
  = (Err ErrUndefinedLength, {| lastTime := of_Z 0; lastRandom := None |}, zero_bytes).
Proof.
  assert (E : run (ulidFactory None) zero_bytes [explicit (-1) 0]
              = ([Err ErrNegative],
                 Monotonic {| lastTime := of_Z 0; lastRandom := None |}, zero_bytes))
    by (vm_compute; reflexivity).
  refine (proj1 (monotonic_before_first_id None zero_bytes zero_bytes zero_bytes
                   [explicit (-1) 0] [Err ErrNegative] _ (absent 0) E _ _) _);
    reflexivity.
Defined.

(** X20. The stateless generator, call by call: an invalid resolved
    timestamp is rejected with the error of [validateTimestamp] before any
    random byte is drawn; a valid one, zero included, gives an identifier
    that [decodeTime] maps back to it, at the cost of sixteen random
    bytes.  Without an argument the timestamp is the clock reading. *)
Theorem nonmonotonic_call_timestamp (w : world) (c : call) :
  (forall e, validateTimestamp (timestampOrNow c) = Err e ->
     nonmonotonic_call w c = (Err e, w))
  /\ (validateTimestamp (timestampOrNow c) = Ok tt ->
      exists id, nonmonotonic_call w c = (Ok id, advance_by RANDOM_LEN w)
                 /\ decodeTime id = Ok (to_Z (timestampOrNow c)))
  /\ (timestamp c = None -> timestampOrNow c = of_Z (Date_now c)).
Proof.
  pose proof (nonmonotonic_call_cases w c) as N. split; [|split].
  - intros e H. now rewrite H in N.
  - intros H. rewrite H in N.
    destruct N as (time & random & _ & Lt & At & Vt & Lr & Ar & E).
    exists (time ++ random). split; [exact E|].
    rewrite <- Vt. apply decodeTime_parts; try assumption.
    rewrite Vt. apply (valid_range _ H).
  - intros H. unfold timestampOrNow. now rewrite H.
Qed.

Lemma nonmonotonic_call_timestamp_witness :
  exists id, nonmonotonic_call zero_bytes (absent 0)
             = (Ok id, advance_by RANDOM_LEN zero_bytes)
             /\ decodeTime id = Ok (to_Z (timestampOrNow (absent 0))).
Proof.
  apply (proj1 (proj2 (nonmonotonic_call_timestamp zero_bytes (absent 0)))).
  reflexivity.
Defined.

(** * The first version of the library *)

Lemma legacy_encodeTime_eq (t : number) (len : nat) :
  Legacy.encodeTime t len = encodeTime t len.
Proof.
  unfold Legacy.encodeTime, encodeTime, validateTimestamp.
  destruct (isNaN t); [reflexivity|].
  destruct (num_gt t (of_Z TIME_MAX)); [reflexivity|].
  destruct (num_lt t (of_Z 0)); [reflexivity|].
  destruct (negb (Number_isInteger t)); reflexivity.
Qed.

Lemma legacy_incrementBase32_scan (s : string) :
  Legacy.incrementBase32 s = scan s (String.length s).
Proof. unfold Legacy.incrementBase32. apply incrementBase32_loop_scan. lia. Qed.

Lemma legacy_incrementBase32_all_Z (k : nat) :
  Legacy.incrementBase32 (js_repeat "Z" k) = Err ErrIncorrectlyEncoded.
Proof.
  rewrite legacy_incrementBase32_scan, length_js_repeat.
  pose proof (scan_trailing_Z k "" "") as H. cbn [append String.length] in H.
  rewrite !app_empty_r in H. cbn [Nat.add] in H. rewrite H. reflexivity.
Qed.

Lemma legacy_incrementBase32_value (s : string) :
  all_base32 s = true -> s <> js_repeat "Z" (String.length s) ->
  exists s', Legacy.incrementBase32 s = Ok s'
             /\ String.length s' = String.length s
             /\ all_base32 s' = true
             /\ base32_value s' = base32_value s + 1.
Proof.
  intros Hwf Hne. rewrite legacy_incrementBase32_scan.
  destruct (scan_value s "" Hwf (below_maximum s Hwf Hne)) as (s' & H).
  rewrite !app_empty_r in H. now exists s'.
Qed.

(** X21. The first version's [incrementBase32] is the bare loop: it
    returns the successor of a well-formed string of any length that is
    not all ['Z'], it reports a string of ['Z'] of any length, the sixteen
    of the maximum included, as "Incorrectly encoded string", and wherever
    the two guards of the current version let a string through, the two
    versions agree. *)
Theorem legacy_incrementBase32_unguarded :
  (forall s, all_base32 s = true -> s <> js_repeat "Z" (String.length s) ->
     exists s', Legacy.incrementBase32 s = Ok s'
                /\ String.length s' = String.length s
                /\ all_base32 s' = true
                /\ base32_value s' = base32_value s + 1)
  /\ (forall k, Legacy.incrementBase32 (js_repeat "Z" k) = Err ErrIncorrectlyEncoded)
  /\ (forall s, (String.length s <= RANDOM_LEN)%nat -> s <> js_repeat "Z" RANDOM_LEN ->
      incrementBase32 s = Legacy.incrementBase32 s).
Proof.
  split; [exact legacy_incrementBase32_value | split].
  - exact legacy_incrementBase32_all_Z.
  - intros s L NE. now rewrite incrementBase32_scan, legacy_incrementBase32_scan.
Qed.

Lemma legacy_incrementBase32_unguarded_witness :
  (exists s', Legacy.incrementBase32 "00000000000000000ZZ" = Ok s'
              /\ String.length s' = String.length "00000000000000000ZZ"
              /\ all_base32 s' = true
              /\ base32_value s' = base32_value "00000000000000000ZZ" + 1)
  /\ incrementBase32 "0Z" = Legacy.incrementBase32 "0Z".
Proof.
  destruct legacy_incrementBase32_unguarded as (Hsucc & _ & Hsame).
  split.
  - apply Hsucc; [reflexivity | vm_compute; discriminate].
  - apply Hsame; [unfold RANDOM_LEN; cbn; lia | vm_compute; discriminate].
Defined.

(** X22. The first version's [ulid(seedTime)] tests the seed with
    [isNaN], not for truthiness: every valid seed is used, [0] included,
    and the identifier decodes to it; only an absent or [NaN] seed is
    replaced by the clock reading. *)
Theorem legacy_ulid_seed (w : world) (now : Z) :
  (forall t, 0 <= t <= TIME_MAX ->
     exists id, Legacy.ulid (Some (of_Z t)) now w = (Ok id, advance_by RANDOM_LEN w)
                /\ decodeTime id = Ok t)
  /\ (0 <= now <= TIME_MAX ->
      exists id, Legacy.ulid None now w = (Ok id, advance_by RANDOM_LEN w)
                 /\ Legacy.ulid (Some NaN) now w = (Ok id, advance_by RANDOM_LEN w)
                 /\ decodeTime id = Ok now).
Proof.
  assert (H : forall t, 0 <= t <= TIME_MAX ->
                exists time random,
                  Legacy.encodeTime (of_Z t) TIME_LEN = Ok time
                  /\ encodeRandom RANDOM_LEN w = (random, advance_by RANDOM_LEN w)
                  /\ decodeTime (time ++ random) = Ok t).
  { intros t Ht. rewrite legacy_encodeTime_eq.
    destruct (encodeTime_valid _ (validateTimestamp_of_Z t Ht)) as (time & Et & Lt & At & Vt).
    destruct (encodeRandom_world RANDOM_LEN w) as (random & Er & Lr & _).
    exists time, random. split; [exact Et|]. split; [exact Er|].
    rewrite to_Z_of_Z in Vt. rewrite <- Vt.
    apply decodeTime_parts; try assumption. lia. }
  split.
  - intros t Ht. destruct (H t Ht) as (time & random & Et & Er & D).
    exists (time ++ random). split; [|exact D].
    unfold Legacy.ulid. cbn [isNaN of_Z]. fold (of_Z t). now rewrite Et, Er.
  - intros Hn. destruct (H now Hn) as (time & random & Et & Er & D).
    exists (time ++ random). unfold Legacy.ulid. cbn [isNaN].
    rewrite Et, Er. auto.
Qed.

Lemma legacy_ulid_seed_witness :
  exists id, Legacy.ulid (Some (of_Z 0)) 1469918176385 zero_bytes
             = (Ok id, advance_by RANDOM_LEN zero_bytes)
             /\ decodeTime id = Ok 0.
Proof.
  apply (proj1 (legacy_ulid_seed zero_bytes 1469918176385)).
  split; vm_compute; discriminate.
Defined.

Lemma num_le_of_Z (a b : Z) : num_le (of_Z a) (of_Z b) = (a <=? b).
Proof.
  cbn [num_le of_Z]. unfold Qle_bool, inject_Z. cbn [Qnum Qden].
  now rewrite !Z.mul_1_r.
Qed.

Lemma legacy_encodeTime_beyond (z : Z) (len : nat) :
  TIME_MAX < z -> Legacy.encodeTime (of_Z z) len = Err ErrTooLarge.
Proof.
  intros H. unfold Legacy.encodeTime. cbn [isNaN of_Z num_gt].
  assert (G : Qlt_bool (inject_Z TIME_MAX) (inject_Z z) = true)
    by (apply Qlt_bool_iff; now rewrite <- Zlt_Qlt).
  now rewrite G.
Qed.

(** Once [lastTime] is beyond the range every call throws, and
    [lastTime] stays beyond it. *)
Lemma legacy_beyond_range_step (vars : closure) (w : world) (now : Z) :
  beyond_range vars ->
  exists e vars' w', Legacy.monotonic_call vars w now = (Err e, vars', w')
                     /\ beyond_range vars'.
Proof.
  intros (z & Ez & Hz). unfold Legacy.monotonic_call. rewrite Ez, num_le_of_Z.
  destruct (Z.leb_spec now z) as [Hle|Hgt].
  - destruct (Legacy.incrementBase32_var (lastRandom vars)) as [r|e].
    + rewrite (legacy_encodeTime_beyond z _ Hz). cbn [bind].
      eexists. eexists. eexists. split; [reflexivity|]. now exists z.
    + exists e, vars, w. split; [reflexivity|]. now exists z.
  - destruct (encodeRandom RANDOM_LEN w) as [random w'].
    rewrite (legacy_encodeTime_beyond now _ ltac:(lia)). cbn [bind].
    eexists. eexists. eexists. split; [reflexivity|]. exists now. split; [reflexivity | lia].
Qed.

Lemma legacy_beyond_range_run (clock : list Z) :
  forall (vars : closure) (w : world), beyond_range vars ->
  Forall (fun r => is_ok r = false) (fst (fst (Legacy.monotonic_run vars w clock))).
Proof.
  induction clock as [|now clock IH]; intros vars w Hb; [constructor|].
  cbn [Legacy.monotonic_run].
  destruct (legacy_beyond_range_step vars w now Hb) as (e & vars' & w' & E & Hb').
  rewrite E. specialize (IH vars' w' Hb').
  destruct (Legacy.monotonic_run vars' w' clock) as [[rs f] w2].
  cbn [fst] in *. constructor; [reflexivity | exact IH].
Qed.

(** X23. The first version's monotonic generator stores the clock
    reading before [encodeTime] checks it.  One reading above [2^48 - 1],
    taken by a new generator, therefore disables it for good: that call
    and every later call throws, whatever the clock shows afterwards. *)
Theorem legacy_monotonic_disabled (w : world) (now : Z) (clock : list Z) :
  TIME_MAX < now ->
  Forall (fun r => is_ok r = false)
    (fst (fst (Legacy.monotonic_run Legacy.monotonicFactory w (now :: clock)))).
Proof.
  intros Hn. cbn [Legacy.monotonic_run].
  assert (E : exists random w',
            Legacy.monotonic_call Legacy.monotonicFactory w now
            = (Err ErrTooLarge, {| lastTime := of_Z now; lastRandom := Some random |}, w')).
  { unfold Legacy.monotonic_call, Legacy.monotonicFactory. cbn [lastTime].
    rewrite num_le_of_Z. destruct (Z.leb_spec now 0); [unfold TIME_MAX in Hn; lia|].
    destruct (encodeRandom RANDOM_LEN w) as [random w'].
    rewrite (legacy_encodeTime_beyond now _ Hn). cbn [bind]. now exists random, w'. }
  destruct E as (random & w' & ->).
  pose proof (legacy_beyond_range_run clock
                {| lastTime := of_Z now; lastRandom := Some random |} w') as H.
  destruct (Legacy.monotonic_run _ w' clock) as [[rs f] w2]. cbn [fst] in *.
  constructor; [reflexivity|]. apply H. exists now. now split.
Qed.

Lemma legacy_monotonic_disabled_witness :
  Forall (fun r => is_ok r = false)
    (fst (fst (Legacy.monotonic_run Legacy.monotonicFactory zero_bytes
                 [281474976710656; 1469918176385; 1469918176386]))).
Proof. apply legacy_monotonic_disabled. vm_compute. reflexivity. Defined.

Lemma legacy_monotonic_call_step (vars : closure) (w : world) (now : Z) :
  legacy_consistent vars ->
  forall r vars' w', Legacy.monotonic_call vars w now = (r, vars', w') ->
  legacy_consistent vars'
  /\ last_value vars <= last_value vars'
  /\ match r with
     | Err _ => True
     | Ok id =>
         ulid_shaped id
         /\ base32_value id = last_value vars'
         /\ last_value vars < base32_value id
     end.
Proof.
  intros [(z & Ez & Hz) Hrand] r vars' w'. unfold Legacy.monotonic_call.
  rewrite Ez, num_le_of_Z.
  assert (Henc : forall x, 0 <= x ->
            match Legacy.encodeTime (of_Z x) TIME_LEN with
            | Ok time => String.length time = TIME_LEN /\ all_base32 time = true
                         /\ base32_value time = x
            | Err _ => True
            end).
  { intros x Hx. destruct (Z.le_gt_cases x TIME_MAX) as [Hle|Hgt].
    - rewrite legacy_encodeTime_eq.
      destruct (encodeTime_valid _ (validateTimestamp_of_Z x (conj Hx Hle)))
        as (time & -> & Lt & At & Vt).
      rewrite to_Z_of_Z in Vt. auto.
    - now rewrite legacy_encodeTime_beyond. }
  destruct (Z.leb_spec now z) as [Hle|Hgt].
  - destruct (lastRandom vars) as [random0|] eqn:E0; cbn [Legacy.incrementBase32_var].
    2:{ intros H. injection H as <- <- <-.
        split; [split; [now exists z | now rewrite E0] | split; [lia | exact I]]. }
    destruct Hrand as [L0 A0].
    destruct (string_dec random0 (js_repeat "Z" RANDOM_LEN)) as [->|NE].
    { rewrite legacy_incrementBase32_all_Z. intros H. injection H as <- <- <-.
      split; [split; [now exists z | rewrite E0; auto] | split; [lia | exact I]]. }
    destruct (legacy_incrementBase32_value random0 A0) as (random & -> & Lr & Ar & Vr);
      [now rewrite L0|].
    rewrite L0 in Lr. intros H. injection H as <- <- <-.
    split; [split; [now exists z | cbn; auto]|].
    unfold last_value. cbn [lastRandom lastTime]. rewrite E0, Ez, Vr.
    split; [lia|]. specialize (Henc z Hz).
    destruct (Legacy.encodeTime (of_Z z) TIME_LEN) as [time|]; cbn [bind]; [|exact I].
    destruct Henc as (Lt & At & Vt).
    split; [now apply ulid_shaped_app|].
    rewrite base32_value_app, Lr, Vt, Vr, to_Z_of_Z. split; lia.
  - destruct (encodeRandom_world RANDOM_LEN w) as (random & -> & Lr & Ar).
    intros H. injection H as <- <- <-.
    split; [split; [exists now; split; [reflexivity | lia] | cbn; auto]|].
    pose proof (base32_value_bound random Ar) as Br. rewrite Lr in Br.
    pose proof (pow32_pos RANDOM_LEN) as Hp.
    assert (Hlt : last_value vars
                  < now * 32 ^ Z.of_nat RANDOM_LEN + base32_value random).
    { unfold last_value. destruct (lastRandom vars) as [random0|].
      - destruct Hrand as [L0 A0].
        pose proof (base32_value_bound random0 A0) as B0. rewrite L0 in B0.
        rewrite Ez, to_Z_of_Z. nia.
      - nia. }
    unfold last_value at 2. cbn [lastRandom lastTime]. rewrite to_Z_of_Z.
    split; [lia|]. specialize (Henc now ltac:(lia)).
    destruct (Legacy.encodeTime (of_Z now) TIME_LEN) as [time|]; cbn [bind]; [|exact I].
    destruct Henc as (Lt & At & Vt).
    split; [now apply ulid_shaped_app|].
    rewrite base32_value_app, Lr, Vt. unfold last_value at 1.
    cbn [lastRandom lastTime]. rewrite to_Z_of_Z. split; [reflexivity | exact Hlt].
Qed.

Lemma legacy_monotonic_run_sorted (clock : list Z) :
  forall (vars : closure) (w : world), legacy_consistent vars ->
  Forall (fun id => ulid_shaped id /\ last_value vars < base32_value id)
    (emitted (fst (fst (Legacy.monotonic_run vars w clock))))
  /\ StronglySorted lex_lt (emitted (fst (fst (Legacy.monotonic_run vars w clock)))).
Proof.
  induction clock as [|now clock IH]; intros vars w Hc.
  - cbn. split; constructor.
  - cbn [Legacy.monotonic_run].
    destruct (Legacy.monotonic_call vars w now) as [[r vars1] w1] eqn:E.
    destruct (legacy_monotonic_call_step vars w now Hc _ _ _ E) as (Hc1 & Hle & Hr).
    destruct (IH vars1 w1 Hc1) as [Hall Hsorted].
    destruct (Legacy.monotonic_run vars1 w1 clock) as [[rs f] w2]. cbn [fst] in *.
    destruct r as [id|e]; cbn [emitted].
    + destruct Hr as (Hshape & Hval & Hlt).
      assert (Hrest : Forall (fun id' => ulid_shaped id'
                        /\ base32_value id < base32_value id') (emitted rs)).
      { rewrite Hval. exact Hall. }
      split.
      * constructor; [split; assumption|].
        eapply Forall_impl; [|exact Hrest]. cbn. intros id' [S' L']. split; [exact S' | lia].
      * constructor; [exact Hsorted|].
        eapply Forall_impl; [|exact Hrest]. cbn. intros id' [[L' A'] V'].
        destruct Hshape as [L A].
        apply lex_lt_base32_value; [congruence | assumption | assumption | exact V'].
    + split; [|exact Hsorted].
      eapply Forall_impl; [|exact Hall]. cbn. intros id' [S' L']. split; [exact S' | lia].
Qed.

(** X24. The first version's monotonic generator has the ordering
    property too: for any sequence of clock readings, rising, frozen,
    falling or out of range, the identifiers it emits are well-formed and
    strictly increasing in lexicographic order. *)
Theorem legacy_monotonic_strictly_increasing (w : world) (clock : list Z) :
  StronglySorted lex_lt
    (emitted (fst (fst (Legacy.monotonic_run Legacy.monotonicFactory w clock))))
  /\ Forall ulid_shaped
       (emitted (fst (fst (Legacy.monotonic_run Legacy.monotonicFactory w clock)))).
Proof.
  assert (Hc : legacy_consistent Legacy.monotonicFactory).
  { split; [exists 0; split; [reflexivity | lia] | exact I]. }
  destruct (legacy_monotonic_run_sorted clock _ w Hc) as [Hall Hsorted].
  split; [exact Hsorted|].
  eapply Forall_impl; [|exact Hall]. cbn. now intros id [H _].
Qed.
